(** * stack_pool: a pool of index-linked stacks (exam/stack_pool.hpp)

    A shallow embedding of the class templates [stack_pool<T, N>] and
    [MyIterator<P, T, N>], and the properties of the specification proved
    (or refuted) on it.

    Modelling choices.
    - [T] is an arbitrary type. The index type [N] is an unsigned integer
      type of [index_bits] bits ([std::size_t] by default); its values are
      modelled by [nat], and the one conversion of the code into [N],
      [static_cast<N>(pool.size())] in [_push], is [cast_index], the
      reduction modulo [2 ^ index_bits]. The only subtraction of the code,
      [x-1] in [node], wraps exactly at [x = 0], where it denotes the
      largest slot number, which no storage has.
    - [std::vector<node_t>] is a list of elements and a capacity. Its
      [operator[]] does no bounds check: a slot outside the elements is
      undefined behaviour, the outcome [Undefined] below.
    - Allocation is assumed to succeed ([std::bad_alloc] and
      [std::length_error] are not modelled), so no operation throws.
    - The two loops ([free_stack] and a client's iterator loop) take fuel:
      [None] means that the fuel ran out before the loop ended. *)

From stdpp Require Import base option list.

Set Default Proof Using "Type".

(** ** Outcomes of a call *)

(** The exceptions [std::vector] can raise. *)
Inductive exception : Type :=
| bad_alloc
| length_error.

(** A C++ call returns a result, leaves by an exception, or has no defined
    behaviour at all. *)
Inductive outcome (A : Type) : Type :=
| Returns (a : A)
| Throws (e : exception)
| Undefined.
Arguments Returns {A} a.
Arguments Throws {A} e.
Arguments Undefined {A}.

#[global] Instance outcome_ret : MRet outcome := λ A a, Returns a.
#[global] Instance outcome_bind : MBind outcome := λ A B k o,
  match o with
  | Returns a => k a
  | Throws e => Throws e
  | Undefined => Undefined
  end.
#[global] Instance outcome_fmap : FMap outcome := λ A B f o,
  match o with
  | Returns a => Returns (f a)
  | Throws e => Throws e
  | Undefined => Undefined
  end.

(** ** The index type *)

(** The template parameter [N]: an unsigned integer type, given by its
    width. *)
Class IndexType : Type := { index_bits : N }.

(** [static_cast<N>(n)] for a size [n]. *)
Definition cast_index `{IndexType} (n : nat) : nat :=
  N.to_nat (N.of_nat n mod 2 ^ index_bits)%N.

(** [n] is a value of [N]. *)
Definition representable `{IndexType} (n : nat) : Prop :=
  (N.of_nat n < 2 ^ index_bits)%N.

(** [typename N = std::size_t], on a 64-bit platform. *)
#[global] Instance size_t : IndexType := {| index_bits := 64 |}.

(** [std::uint8_t], a narrow index type. *)
Definition uint8_t : IndexType := {| index_bits := 8 |}.

(** ** std::vector *)

(** How the library enlarges a full vector on [push_back]: from [n] elements
    to room for [grow n] of them (libstdc++ and libc++ double, MSVC adds a
    half). *)
Class GrowthPolicy : Type := {
  grow : nat → nat;
  grow_gt : ∀ n, n < grow n;
}.

(** libstdc++: [len = size() + max(size(), 1)]. *)
Definition double (n : nat) : nat := n + Nat.max n 1.

Lemma double_gt (n : nat) : n < double n.
Proof. unfold double. lia. Qed.

#[global] Instance doubling : GrowthPolicy :=
  {| grow := double; grow_gt := double_gt |}.

Module Vec.
Section vector.
Context {A : Type} `{GrowthPolicy}.

Record vector : Type := Vector { elems : list A; cap : nat }.

Definition size (v : vector) : nat := length (elems v).
Definition capacity (v : vector) : nat := cap v.

(** [v[i]], read. *)
Definition at_ (v : vector) (i : nat) : outcome A :=
  match elems v !! i with
  | Some a => Returns a
  | None => Undefined
  end.

(** [v[i] = a], the write through the reference [v[i]] returns. *)
Definition assign (v : vector) (i : nat) (a : A) : outcome vector :=
  match elems v !! i with
  | Some _ => Returns (Vector (<[i:=a]> (elems v)) (cap v))
  | None => Undefined
  end.

Definition push_back (v : vector) (a : A) : vector :=
  Vector (elems v ++ [a])
         (if decide (size v < cap v) then cap v else grow (size v)).

(** [reserve(n)] reallocates to exactly [n] when [n] exceeds the capacity,
    and does nothing otherwise. *)
Definition reserve (v : vector) (n : nat) : vector :=
  Vector (elems v) (if decide (cap v < n) then n else cap v).
End vector.
Arguments vector A : clear implicits.
End Vec.

(** ** stack_pool *)

Module StackPool.
Section pool.
Context {T : Type} {Idx : IndexType} `{GrowthPolicy}.

Record node_t : Type := Node { node_value : T; node_next : nat }.

Record stack_pool : Type :=
  Pool { pool : Vec.vector node_t; free_nodes : nat }.

(** [stack_pool() noexcept = default]: no node, no free node. *)
Definition default_pool : stack_pool := Pool (Vec.Vector [] 0) 0.

(** [end()]: the sentinel. *)
Definition end_ : nat := 0.

Definition new_stack (p : stack_pool) : nat := end_.

Definition capacity (p : stack_pool) : nat := Vec.capacity (pool p).

Definition reserve (p : stack_pool) (n : nat) : stack_pool :=
  Pool (Vec.reserve (pool p) n) (free_nodes p).

(** [explicit stack_pool(size_type n) { reserve(n); }] *)
Definition sized_pool (n : nat) : stack_pool := reserve default_pool n.

Definition empty (x : nat) : bool := bool_decide (x = end_).

(** [node(x)] is [pool[x-1]]; at [x = 0] the unsigned [x-1] is [SIZE_MAX]. *)
Definition node (p : stack_pool) (x : nat) : outcome node_t :=
  match x with
  | 0 => Undefined
  | S i => Vec.at_ (pool p) i
  end.

(** [node(x) = n] *)
Definition set_node (p : stack_pool) (x : nat) (n : node_t) : outcome stack_pool :=
  match x with
  | 0 => Undefined
  | S i => v ← Vec.assign (pool p) i n; mret (Pool v (free_nodes p))
  end.

(** [value(x)] and [next(x)] return references: one definition for the
    read and one for the write through the reference. *)
Definition value (p : stack_pool) (x : nat) : outcome T :=
  n ← node p x; mret (node_value n).

Definition next (p : stack_pool) (x : nat) : outcome nat :=
  n ← node p x; mret (node_next n).

Definition set_value (p : stack_pool) (x : nat) (v : T) : outcome stack_pool :=
  n ← node p x; set_node p x (Node v (node_next n)).

Definition set_next (p : stack_pool) (x : nat) (y : nat) : outcome stack_pool :=
  n ← node p x; set_node p x (Node (node_value n) y).

Definition set_free_nodes (p : stack_pool) (x : nat) : stack_pool :=
  Pool (pool p) x.

Definition _push (p : stack_pool) (val : T) (head : nat) : outcome (nat * stack_pool) :=
  if empty (free_nodes p) then
    let p1 := Pool (Vec.push_back (pool p) (Node val head)) (free_nodes p) in
    mret (cast_index (Vec.size (pool p1)), p1)
  else
    let tmp := free_nodes p in
    nx ← next p (free_nodes p);
    let p1 := set_free_nodes p nx in
    p2 ← set_value p1 tmp val;
    p3 ← set_next p2 tmp head;
    mret (tmp, p3).

Definition push (p : stack_pool) (val : T) (head : nat) : outcome (nat * stack_pool) :=
  _push p val head.

Definition pop (p : stack_pool) (x : nat) : outcome (nat * stack_pool) :=
  tmp ← next p x;
  p1 ← set_next p x (free_nodes p);
  let p2 := set_free_nodes p1 x in
  mret (tmp, p2).

(** [while (x != end()) { x = pop(x); } return x;] *)
Fixpoint free_stack (fuel : nat) (p : stack_pool) (x : nat)
  : option (outcome (nat * stack_pool)) :=
  if negb (bool_decide (x = end_)) then
    match fuel with
    | 0 => None
    | S fuel' =>
        match pop p x with
        | Returns (x', p') => free_stack fuel' p' x'
        | Throws e => Some (Throws e)
        | Undefined => Some Undefined
        end
    end
  else Some (Returns (x, p)).

(** *** MyIterator *)

(** The iterator points to the pool it walks and holds an index into it;
    [PoolPointer] stands for the pool pointed to. *)
Record MyIterator : Type :=
  Iterator { PoolPointer : stack_pool; StackIndex : nat }.

Definition operator_deref (it : MyIterator) : outcome T :=
  value (PoolPointer it) (StackIndex it).

Definition operator_incr (it : MyIterator) : outcome MyIterator :=
  x ← next (PoolPointer it) (StackIndex it);
  mret (Iterator (PoolPointer it) x).

Definition operator_eq (lhs rhs : MyIterator) : bool :=
  bool_decide (StackIndex lhs = StackIndex rhs).

Definition operator_neq (lhs rhs : MyIterator) : bool :=
  negb (bool_decide (StackIndex lhs = StackIndex rhs)).

Definition begin_ (p : stack_pool) (x : nat) : MyIterator := Iterator p x.
Definition end_of (p : stack_pool) (x : nat) : MyIterator := Iterator p end_.

(** *** Client code *)

(** [h = push(v1, h); ...; h = push(vk, h);] *)
Fixpoint push_all (p : stack_pool) (vs : list T) (h : nat) : outcome (nat * stack_pool) :=
  match vs with
  | [] => mret (h, p)
  | v :: vs' => '(h', p') ← push p v h; push_all p' vs' h'
  end.

(** [push(v1, h1); ...; push(vk, hk);] with heads of the caller's choice;
    the heads returned are collected. *)
Fixpoint pushes (p : stack_pool) (vhs : list (T * nat)) : outcome (list nat * stack_pool) :=
  match vhs with
  | [] => mret ([], p)
  | (v, h) :: vhs' =>
      '(x, p') ← push p v h;
      '(xs, p'') ← pushes p' vhs';
      mret (x :: xs, p'')
  end.

(** [pop(x1); ...; pop(xk);] on heads of the caller's choice. *)
Fixpoint pops (p : stack_pool) (xs : list nat) : outcome stack_pool :=
  match xs with
  | [] => mret p
  | x :: xs' => '(_, p') ← pop p x; pops p' xs'
  end.

(** The external iteration the specification compares [free_stack] with:
    the caller's [x = pop(x);], [n] times. *)
Fixpoint pop_n (n : nat) (p : stack_pool) (x : nat) : outcome (nat * stack_pool) :=
  match n with
  | 0 => mret (x, p)
  | S n' => '(x', p') ← pop p x; pop_n n' p' x'
  end.

Definition yield (v : T) (r : option (outcome (list T))) : option (outcome (list T)) :=
  match r with
  | Some (Returns vs) => Some (Returns (v :: vs))
  | _ => r
  end.

(** The values a loop [for (; it != last; ++it)] sees when it dereferences
    [it] in its body. *)
Fixpoint traverse (fuel : nat) (it last : MyIterator) : option (outcome (list T)) :=
  if operator_neq it last then
    match fuel with
    | 0 => None
    | S fuel' =>
        match operator_deref it with
        | Returns v =>
            match operator_incr it with
            | Returns it' => yield v (traverse fuel' it' last)
            | Throws e => Some (Throws e)
            | Undefined => Some Undefined
            end
        | Throws e => Some (Throws e)
        | Undefined => Some Undefined
        end
    end
  else Some (Returns []).

(** Calls of the public interface, and what a sequence of them does to the
    pool. A [free_stack] call comes with the fuel of its loop. *)
Inductive call : Type :=
| call_new_stack
| call_push (v : T) (head : nat)
| call_pop (x : nat)
| call_free_stack (fuel : nat) (x : nat)
| call_reserve (n : nat).

Definition exec (p : stack_pool) (c : call) : option (outcome stack_pool) :=
  match c with
  | call_new_stack => Some (Returns p)
  | call_push v head => Some (snd <$> push p v head)
  | call_pop x => Some (snd <$> pop p x)
  | call_free_stack fuel x => fmap (M:=option) (fmap snd) (free_stack fuel p x)
  | call_reserve n => Some (Returns (reserve p n))
  end.

Fixpoint exec_all (p : stack_pool) (cs : list call) : option (outcome stack_pool) :=
  match cs with
  | [] => Some (Returns p)
  | c :: cs' =>
      match exec p c with
      | Some (Returns p') => exec_all p' cs'
      | r => r
      end
  end.

(** A client that keeps the heads of its stacks in a table and uses each
    head once: it passes the current head of a stack to the pool and stores
    the head that comes back in its place. [None] is a call outside the
    contract (no such stack, [pop] on an empty one) or one that did not
    return. *)
Record client : Type := Client { the_pool : stack_pool; stacks : list nat }.

Inductive op : Type :=
| NewStack
| Push (i : nat) (v : T)
| Pop (i : nat)
| FreeStack (i : nat) (fuel : nat)
| Reserve (n : nat).

Definition returned (c : client) (i : nat) (r : outcome (nat * stack_pool)) : option client :=
  match r with
  | Returns (h, p) => Some (Client p (<[i:=h]> (stacks c)))
  | _ => None
  end.

Definition step (c : client) (o : op) : option client :=
  match o with
  | NewStack => Some (Client (the_pool c) (stacks c ++ [new_stack (the_pool c)]))
  | Push i v => h ← stacks c !! i; returned c i (push (the_pool c) v h)
  | Pop i =>
      h ← stacks c !! i;
      if empty h then None else returned c i (pop (the_pool c) h)
  | FreeStack i fuel =>
      h ← stacks c !! i; r ← free_stack fuel (the_pool c) h; returned c i r
  | Reserve n => Some (Client (reserve (the_pool c) n) (stacks c))
  end.

Fixpoint run (c : client) (os : list op) : option client :=
  match os with
  | [] => Some c
  | o :: os' => c' ← step c o; run c' os'
  end.

(** *** The linked lists inside the pool *)

(** The node of index [x], when the pool has one. *)
Definition slot (p : stack_pool) (x : nat) : option node_t :=
  match x with
  | 0 => None
  | S i => Vec.elems (pool p) !! i
  end.

(** [chain p h l]: following [next] from [h] visits the nodes [l], in this
    order, and then the sentinel. *)
Fixpoint chain (p : stack_pool) (h : nat) (l : list nat) : Prop :=
  match l with
  | [] => h = end_
  | x :: l' =>
      h = x ∧
      match slot p x with
      | Some n => chain p (node_next n) l'
      | None => False
      end
  end.

(** The values stored in the nodes [l]. *)
Definition contents (p : stack_pool) (l : list nat) : list T :=
  omap (λ x, node_value <$> slot p x) l.

(** The free list is [lf], the stacks of the client are [ls], and no node
    is on two of these lists or twice on one; every node of the pool is on
    one of them. *)
Definition lists (c : client) (lf : list nat) (ls : list (list nat)) : Prop :=
  chain (the_pool c) (free_nodes (the_pool c)) lf ∧
  Forall2 (chain (the_pool c)) (stacks c) ls ∧
  NoDup (lf ++ concat ls) ∧
  ∀ x, x ∈ lf ++ concat ls ↔ 1 ≤ x ≤ Vec.size (pool (the_pool c)).

Definition well_formed (c : client) : Prop := ∃ lf ls, lists c lf ls.

(** What the contract asks of the calls of a client; [free_stack] is given
    fuel for as many rounds as the pool has nodes. *)
Definition legal (c : client) (o : op) : Prop :=
  match o with
  | NewStack | Reserve _ => True
  | Push i _ => i < length (stacks c)
  | Pop i => ∃ h, stacks c !! i = Some h ∧ h ≠ end_
  | FreeStack i fuel =>
      i < length (stacks c) ∧ Vec.size (pool (the_pool c)) ≤ fuel
  end.

(** The pool with the node of index [x] replaced by [n]. *)
Definition store (p : stack_pool) (x : nat) (n : node_t) : stack_pool :=
  match x with
  | 0 => p
  | S i =>
      Pool (Vec.Vector (<[i:=n]> (Vec.elems (pool p))) (Vec.cap (pool p)))
           (free_nodes p)
  end.

(** The node [push] is about to use when the free list is [lf]: its head,
    or the first index past the storage when no node is free. *)
Definition fresh (p : stack_pool) (lf : list nat) : nat :=
  default (S (Vec.size (pool p))) (head lf).

(** *** A table of lists, to compare the client's stacks with *)

(** What each call of a client does to a table of plain lists, one per
    stack, most recent value first. *)
Definition model_step (vs : list (list T)) (o : op) : list (list T) :=
  match o with
  | NewStack => vs ++ [[]]
  | Push i v => alter (cons v) i vs
  | Pop i => alter tail i vs
  | FreeStack i _ => alter (λ _, []) i vs
  | Reserve _ => vs
  end.

Fixpoint model_run (vs : list (list T)) (os : list op) : list (list T) :=
  match os with
  | [] => vs
  | o :: os' => model_run (model_step vs o) os'
  end.

(** The stacks of the client hold the values [vs]: they are the lists [ls]
    of nodes, kept apart as [lists] says, and the nodes of the [i]-th
    stack store the [i]-th list of [vs]. *)
Definition represents (c : client) (vs : list (list T)) : Prop :=
  ∃ lf ls, lists c lf ls ∧ Forall2 (λ l v, contents (the_pool c) l = v) ls vs.
End pool.
Arguments node_t T : clear implicits.
Arguments stack_pool T : clear implicits.
Arguments MyIterator T : clear implicits.
Arguments call T : clear implicits.
Arguments op T : clear implicits.
Arguments client T : clear implicits.

(** *** Sample pools *)

(** Three nodes pushed on one stack, whose head is [3]. *)
Definition sample_pool : stack_pool nat :=
  Pool (Vec.Vector [Node 1 0; Node 2 1; Node 3 2] 4) 0.

(** [sample_pool] after [pop(3)]: the stack is headed by [2], node [3] is free. *)
Definition recycled_pool : stack_pool nat :=
  Pool (Vec.Vector [Node 1 0; Node 2 1; Node 3 0] 4) 3.

(** With [N = std::uint8_t]: the pool after 255 pushes of the value [7] on
    one stack, whose head is [255]; no node is free. *)
Definition full_pool : stack_pool nat :=
  Pool (Vec.Vector (map (λ i, Node 7 i) (seq 0 255)) 256) 0.

(** ** Properties *)

Section properties.
Context {T : Type} {Idx : IndexType} `{GrowthPolicy}.
Implicit Types (p : stack_pool T) (n : node_t T) (l : list nat) (v : T).

Lemma cast_index_representable (k : nat) : representable k → cast_index k = k.
Proof.
  unfold representable, cast_index. intros Hk.
  rewrite N.mod_small by done. apply Nat2N.id.
Qed.

Lemma representable_le (j k : nat) : j ≤ k → representable k → representable j.
Proof.
  unfold representable. intros Hjk Hk.
  apply N.le_lt_trans with (N.of_nat k); [lia | done].
Qed.

Lemma slot_is_Some p x : is_Some (slot p x) ↔ 1 ≤ x ≤ Vec.size (pool p).
Proof.
  destruct x as [|i]; simpl.
  - split; [intros [? ?]; discriminate | lia].
  - rewrite lookup_lt_is_Some. unfold Vec.size. lia.
Qed.

Lemma slot_None p x : slot p x = None ↔ x = 0 ∨ Vec.size (pool p) < x.
Proof.
  rewrite eq_None_not_Some, slot_is_Some. lia.
Qed.

Lemma node_slot p x :
  node p x = match slot p x with Some n => Returns n | None => Undefined end.
Proof. destruct x; reflexivity. Qed.

Lemma set_node_slot p x n :
  set_node p x n =
  match slot p x with Some _ => Returns (store p x n) | None => Undefined end.
Proof.
  destruct x as [|i]; simpl; [done|].
  unfold Vec.assign. destruct (Vec.elems (pool p) !! i); reflexivity.
Qed.

Lemma slot_store p x n y :
  slot (store p x n) y =
  if decide (x = y) then (λ _, n) <$> slot p x else slot p y.
Proof.
  destruct x as [|i]; simpl.
  - case_decide; [subst; reflexivity | reflexivity].
  - destruct y as [|j]; simpl.
    + destruct (decide (S i = 0)); done.
    + case_decide as Hxy.
      * injection Hxy as ->.
        destruct (Vec.elems (pool p) !! j) eqn:E; simpl.
        -- apply list_lookup_insert_eq. by eapply lookup_lt_Some.
        -- rewrite list_insert_ge; [done|]. by apply lookup_ge_None.
      * rewrite list_lookup_insert_ne; [done | congruence].
Qed.

Lemma slot_store_eq p x n n0 : slot p x = Some n0 → slot (store p x n) x = Some n.
Proof. intros E. rewrite slot_store, decide_True, E; done. Qed.

Lemma slot_store_ne p x n y : x ≠ y → slot (store p x n) y = slot p y.
Proof. intros E. by rewrite slot_store, decide_False. Qed.

Lemma size_store p x n : Vec.size (pool (store p x n)) = Vec.size (pool p).
Proof. destruct x; [done|]. unfold Vec.size. simpl. apply length_insert. Qed.

Lemma cap_store p x n : capacity (store p x n) = capacity p.
Proof. by destruct x. Qed.

Lemma free_nodes_store p x n : free_nodes (store p x n) = free_nodes p.
Proof. by destruct x. Qed.

(** What [pop] does, in one step. *)
Lemma pop_slot p x :
  pop p x =
  match slot p x with
  | Some n =>
      Returns (node_next n,
               set_free_nodes (store p x (Node (node_value n) (free_nodes p))) x)
  | None => Undefined
  end.
Proof.
  unfold pop, next, set_next. rewrite node_slot.
  destruct (slot p x) as [n|] eqn:E; simpl; [|done].
  rewrite set_node_slot, E. reflexivity.
Qed.

(** What [push] does on its two paths, in one step. *)
Lemma push_grow p v h :
  free_nodes p = 0 →
  push p v h =
  Returns (cast_index (S (Vec.size (pool p))),
           Pool (Vec.push_back (pool p) (Node v h)) 0).
Proof.
  intros E. unfold push, _push, empty, end_. rewrite E. simpl.
  unfold Vec.size at 1. simpl. rewrite length_app. simpl.
  do 3 f_equal. unfold Vec.size. lia.
Qed.

Lemma push_reuse p v h :
  free_nodes p ≠ 0 →
  push p v h =
  match slot p (free_nodes p) with
  | Some n =>
      Returns (free_nodes p,
               store (set_free_nodes p (node_next n)) (free_nodes p) (Node v h))
  | None => Undefined
  end.
Proof.
  intros E. unfold push, _push, empty, end_.
  rewrite bool_decide_eq_false_2 by done.
  unfold next, set_value, set_next. rewrite !node_slot.
  destruct (slot p (free_nodes p)) as [n|] eqn:En; simpl; [|done].
  set (p1 := set_free_nodes p (node_next n)).
  assert (slot p1 (free_nodes p) = Some n) as E1 by done.
  rewrite node_slot, E1. simpl. rewrite set_node_slot, E1. simpl.
  rewrite node_slot, (slot_store_eq _ _ _ _ E1). simpl.
  rewrite set_node_slot, (slot_store_eq _ _ _ _ E1). simpl.
  do 2 f_equal.
  destruct (free_nodes p) as [|i]; [done|]. unfold store. simpl.
  by rewrite list_insert_insert_eq.
Qed.

(** *** Chains *)

Lemma chain_nil p h : chain p h [] ↔ h = 0.
Proof. reflexivity. Qed.

Lemma chain_cons p h x l :
  chain p h (x :: l) ↔ h = x ∧ ∃ n, slot p x = Some n ∧ chain p (node_next n) l.
Proof.
  simpl. destruct (slot p x) as [n|]; split.
  - intros [-> ?]. eauto.
  - intros [-> (n' & [= <-] & ?)]. eauto.
  - intros [_ []].
  - intros [_ (? & [=] & _)].
Qed.

Lemma chain_head_0 p l : chain p 0 l → l = [].
Proof.
  destruct l as [|x l]; [done|]. rewrite chain_cons.
  intros [<- (n & E & _)]. discriminate.
Qed.

Lemma chain_head p h l : chain p h l → h ≠ 0 → ∃ l', l = h :: l'.
Proof.
  destruct l as [|x l]; simpl; [done|]. intros [-> _] _. eauto.
Qed.

(** A chain only depends on the nodes it visits. *)
Lemma chain_frame p p' h l :
  (∀ x, x ∈ l → slot p' x = slot p x) → chain p h l → chain p' h l.
Proof.
  revert h. induction l as [|x l IH]; intros h Hfr; [done|].
  rewrite !chain_cons. intros [-> (n & E & Hc)]. split; [done|].
  exists n. split.
  - rewrite Hfr; [done | left].
  - apply IH; [|done]. intros y Hy. apply Hfr. by right.
Qed.

Lemma contents_frame p p' l :
  (∀ x, x ∈ l → slot p' x = slot p x) → contents p' l = contents p l.
Proof.
  induction l as [|x l IH]; intros Hfr; [done|].
  assert (contents p' l = contents p l) as IH'.
  { apply IH. intros y Hy. apply Hfr. by right. }
  unfold contents in *. simpl. rewrite Hfr by left.
  destruct (slot p x); simpl; [f_equal|]; exact IH'.
Qed.

Lemma chain_slots p h l x : chain p h l → x ∈ l → is_Some (slot p x).
Proof.
  revert h. induction l as [|y l IH]; intros h.
  - intros _ Hx. by apply elem_of_nil in Hx.
  - rewrite chain_cons. intros [-> (n & E & Hc)] [->|Hx]%elem_of_cons; eauto.
Qed.

Lemma chain_det p h l1 l2 : chain p h l1 → chain p h l2 → l1 = l2.
Proof.
  revert h l2. induction l1 as [|x l1 IH]; intros h [|y l2].
  - done.
  - rewrite chain_nil, chain_cons. intros -> [<- (n & E & _)]. discriminate.
  - rewrite chain_nil, chain_cons. intros [<- (n & E & _)] ->. discriminate.
  - rewrite !chain_cons. intros [-> (n & E & Hc)] [<- (n' & E' & Hc')].
    assert (n' = n) as -> by congruence. f_equal. eauto.
Qed.

Lemma chain_suffix p h l1 x l2 : chain p h (l1 ++ x :: l2) → chain p x (x :: l2).
Proof.
  revert h. induction l1 as [|y l1 IH]; intros h; simpl app.
  - rewrite !chain_cons. intros [_ ?]. done.
  - rewrite chain_cons. intros [_ (n & _ & Hc)]. eauto.
Qed.

(** A chain that reaches the sentinel visits no node twice: it has no cycle. *)
Lemma chain_NoDup p h l : chain p h l → NoDup l.
Proof.
  revert h. induction l as [|x l IH]; intros h; [constructor|].
  intros Hc. pose proof Hc as [-> (n & E & Hl)]%chain_cons.
  constructor; [|eauto].
  intros (l1 & l2 & ->)%list_elem_of_split.
  pose proof (chain_suffix _ _ _ _ _ Hl) as Hs.
  pose proof (chain_det _ _ _ _ Hc Hs) as Heq.
  apply (f_equal length) in Heq. simpl in Heq.
  rewrite length_app in Heq. simpl in Heq. lia.
Qed.

Lemma chain_length p h l : chain p h l → length l ≤ Vec.size (pool p).
Proof.
  intros Hc.
  assert (l ⊆+ seq 1 (Vec.size (pool p))) as Hsub.
  { apply NoDup_submseteq; [by eapply chain_NoDup|].
    intros x Hx. apply elem_of_seq.
    pose proof (chain_slots _ _ _ _ Hc Hx) as Hs%slot_is_Some. lia. }
  apply submseteq_length in Hsub. by rewrite length_seq in Hsub.
Qed.

Lemma contents_length p h l : chain p h l → length (contents p l) = length l.
Proof.
  revert h. induction l as [|x l IH]; intros h; [done|].
  rewrite chain_cons. intros [-> (n & E & Hc)].
  unfold contents in *. simpl. rewrite E. simpl. f_equal. eauto.
Qed.

(** *** The iterator walks a chain *)

Lemma traverse_chain p h h' l :
  chain p h l →
  traverse (length l) (begin_ p h) (end_of p h') = Some (Returns (contents p l)).
Proof.
  revert h. induction l as [|x l IH]; intros h.
  - rewrite chain_nil. intros ->. reflexivity.
  - rewrite chain_cons. intros [-> (n & E & Hc)].
    assert (x ≠ 0) as Hx by (intros ->; discriminate).
    simpl. unfold operator_neq, operator_deref, operator_incr, value, next.
    simpl. unfold end_. rewrite bool_decide_eq_false_2 by done. simpl.
    rewrite node_slot, E. simpl.
    change (Iterator p (node_next n)) with (begin_ p (node_next n)).
    change (Iterator p 0) with (end_of p h').
    rewrite (IH _ Hc). reflexivity.
Qed.

(** *** What the operations do to the nodes *)

Lemma pop_effect p x n :
  slot p x = Some n →
  ∃ p', pop p x = Returns (node_next n, p') ∧
    free_nodes p' = x ∧
    slot p' x = Some (Node (node_value n) (free_nodes p)) ∧
    (∀ y, y ≠ x → slot p' y = slot p y) ∧
    Vec.size (pool p') = Vec.size (pool p) ∧
    capacity p' = capacity p.
Proof.
  intros E. rewrite pop_slot, E. eexists. split; [reflexivity|].
  split; [done|]. split; [|split; [|split]].
  - change (slot (set_free_nodes ?q _) ?y) with (slot q y).
    by eapply slot_store_eq.
  - intros y Hy. change (slot (set_free_nodes ?q _) ?y) with (slot q y).
    by apply slot_store_ne.
  - apply size_store.
  - apply cap_store.
Qed.

Lemma push_effect p v h lf :
  chain p (free_nodes p) lf →
  (lf = [] → representable (S (Vec.size (pool p)))) →
  ∃ p', push p v h = Returns (fresh p lf, p') ∧
    slot p' (fresh p lf) = Some (Node v h) ∧
    (∀ y, y ≠ fresh p lf → slot p' y = slot p y) ∧
    chain p' (free_nodes p') (tail lf) ∧
    (fresh p lf ∉ tail lf) ∧
    Vec.size (pool p') = (if lf is [] then S (Vec.size (pool p)) else Vec.size (pool p)) ∧
    (lf ≠ [] → capacity p' = capacity p).
Proof.
  intros Hf Hrep. destruct lf as [|f lf].
  - apply chain_nil in Hf. rewrite (push_grow _ _ _ Hf).
    rewrite cast_index_representable by auto. eexists.
    split; [reflexivity|]. unfold fresh. simpl.
    split; [|split; [|split; [|split; [|split]]]].
    + rewrite lookup_app_r by done. by rewrite Nat.sub_diag.
    + intros [|j] Hy; [done|]. simpl.
      destruct (decide (j < length (Vec.elems (pool p)))) as [Hlt|Hge].
      * by rewrite lookup_app_l.
      * rewrite !lookup_ge_None_2; [done | lia |].
        rewrite length_app. simpl. unfold Vec.size in Hy. lia.
    + done.
    + apply not_elem_of_nil.
    + unfold Vec.size. simpl. rewrite length_app. simpl. lia.
    + done.
  - clear Hrep. pose proof (chain_NoDup _ _ _ Hf) as [Hnin _]%NoDup_cons.
    apply chain_cons in Hf as [Hfree (n & E & Hc)].
    assert (free_nodes p ≠ 0) as Hne by (intros E0; rewrite Hfree, E0 in *; discriminate).
    rewrite (push_reuse _ _ _ Hne), Hfree, E. eexists.
    split; [reflexivity|]. unfold fresh. simpl.
    split; [|split; [|split; [|split; [|split]]]].
    + by eapply slot_store_eq.
    + intros y Hy. by rewrite slot_store_ne.
    + rewrite free_nodes_store. simpl.
      eapply chain_frame; [|exact Hc].
      intros y Hy. rewrite slot_store_ne; [done | by intros ->].
    + done.
    + by rewrite size_store.
    + intros _. by rewrite cap_store.
Qed.

(** Pushing in front of a chain that shares no node with the free list. *)
Lemma push_chain p v h l lf :
  chain p h l → chain p (free_nodes p) lf → (∀ x, x ∈ l → x ∉ lf) →
  (lf = [] → representable (S (Vec.size (pool p)))) →
  ∃ p', push p v h = Returns (fresh p lf, p') ∧
    Vec.size (pool p') = (if lf is [] then S (Vec.size (pool p)) else Vec.size (pool p)) ∧
    chain p' (fresh p lf) (fresh p lf :: l) ∧
    contents p' (fresh p lf :: l) = v :: contents p l ∧
    chain p' (free_nodes p') (tail lf) ∧
    (∀ x, x ∈ fresh p lf :: l → x ∉ tail lf).
Proof.
  intros Hl Hf Hdis Hrep.
  destruct (push_effect p v h lf Hf Hrep) as (p' & Hp & Hx & Hfr & Hf' & Hnin & Hsz & _).
  assert (fresh p lf ∉ l) as Hxl.
  { intros Hin. destruct lf as [|f lf]; unfold fresh in *; simpl in *.
    - pose proof (chain_slots _ _ _ _ Hl Hin) as Hs%slot_is_Some. lia.
    - apply (Hdis _ Hin). left. }
  assert (∀ y, y ∈ l → slot p' y = slot p y) as Hfr'.
  { intros y Hy. apply Hfr. by intros ->. }
  exists p'. split; [done|]. split; [done|]. split; [|split; [|split]].
  - apply chain_cons. split; [done|]. eexists. split; [exact Hx|].
    simpl. by eapply chain_frame.
  - unfold contents at 1. simpl. rewrite Hx. simpl. f_equal.
    by apply contents_frame.
  - done.
  - intros x [->|Hx']%elem_of_cons; [done|].
    intros Hin. apply (Hdis _ Hx'). destruct lf; [done|]. by right.
Qed.

Lemma push_all_chain vs p h l lf :
  chain p h l → chain p (free_nodes p) lf → (∀ x, x ∈ l → x ∉ lf) →
  representable (Vec.size (pool p) + (length vs - length lf)) →
  ∃ h' p' l', push_all p vs h = Returns (h', p') ∧
    chain p' h' (l' ++ l) ∧
    contents p' (l' ++ l) = reverse vs ++ contents p l.
Proof.
  revert p h l lf. induction vs as [|v vs IH]; intros p h l lf Hl Hf Hdis Hrep.
  - exists h, p, []. done.
  - destruct (push_chain p v h l lf Hl Hf Hdis)
      as (p1 & Hp & Hsz1 & Hl1 & Hc1 & Hf1 & Hdis1).
    { intros ->. eapply representable_le; [|exact Hrep]. simpl. lia. }
    destruct (IH _ _ _ _ Hl1 Hf1 Hdis1) as (h' & p' & l' & Hpa & Hl' & Hc').
    { eapply representable_le; [|exact Hrep].
      rewrite Hsz1. destruct lf; simpl; lia. }
    exists h', p', (l' ++ [fresh p lf]). simpl. rewrite Hp. simpl.
    split; [done|]. rewrite <- app_assoc. simpl. split; [done|].
    rewrite Hc', Hc1, reverse_cons, <- app_assoc. done.
Qed.

(** *** [free_stack] *)

Lemma free_stack_fuel fuel fuel' p x r :
  free_stack fuel p x = Some r → fuel ≤ fuel' → free_stack fuel' p x = Some r.
Proof.
  revert fuel' p x. induction fuel as [|fuel IH]; intros fuel' p x; simpl.
  - destruct fuel'; simpl; destruct (bool_decide (x = end_)); simpl; done.
  - destruct (bool_decide (x = end_)) eqn:Ex; simpl.
    + intros ? _. destruct fuel'; simpl; by rewrite Ex.
    + intros Hr Hle. destruct fuel' as [|fuel']; [lia|]. simpl. rewrite Ex. simpl.
      destruct (pop p x) as [[x' p']| |]; [|done..].
      apply IH; [done | lia].
Qed.

(** Freeing a chain pops its nodes one by one: the nodes end up, reversed,
    in front of the free list, and nothing else changes. *)
Lemma free_stack_chain p h l :
  chain p h l →
  ∃ p', (∀ fuel, length l ≤ fuel → free_stack fuel p h = Some (Returns (end_, p'))) ∧
    pop_n (length l) p h = Returns (end_, p') ∧
    (∀ y, y ∉ l → slot p' y = slot p y) ∧
    Vec.size (pool p') = Vec.size (pool p) ∧
    capacity p' = capacity p ∧
    (∀ lf, chain p (free_nodes p) lf → (∀ x, x ∈ l → x ∉ lf) →
           chain p' (free_nodes p') (reverse l ++ lf)).
Proof.
  revert p h. induction l as [|x l IH]; intros p h Hc.
  - apply chain_nil in Hc as ->. exists p. split; [|done].
    intros [|fuel] _; reflexivity.
  - pose proof (chain_NoDup _ _ _ Hc) as [Hxl _]%NoDup_cons.
    apply chain_cons in Hc as [-> (n & E & Hc)].
    assert (x ≠ end_) as Hx by (intros ->; discriminate).
    destruct (pop_effect p x n E) as (p1 & Hpop & Hfree & Hsx & Hfr & Hsz & Hcap).
    assert (chain p1 (node_next n) l) as Hc1.
    { eapply chain_frame; [|exact Hc]. intros y Hy. apply Hfr. by intros ->. }
    destruct (IH _ _ Hc1) as (p' & Hfs & Hpn & Hfr' & Hsz' & Hcap' & Hfl).
    exists p'. split; [|split; [|split; [|split; [|split]]]].
    + intros [|fuel] Hle; simpl in Hle; [lia|]. simpl.
      rewrite bool_decide_eq_false_2 by done. simpl. rewrite Hpop.
      apply Hfs. lia.
    + simpl. rewrite Hpop. simpl. done.
    + intros y [Hyx Hyl]%not_elem_of_cons. rewrite Hfr' by done. by apply Hfr.
    + congruence.
    + congruence.
    + intros lf Hlf Hdis. rewrite reverse_cons, <- app_assoc. simpl.
      apply Hfl.
      * rewrite Hfree. apply chain_cons. split; [done|].
        eexists. split; [exact Hsx|]. simpl.
        eapply chain_frame; [|exact Hlf]. intros y Hy. apply Hfr.
        intros ->. eapply Hdis; [left | done].
      * intros y Hy [->|Hy']%elem_of_cons; [done|].
        eapply Hdis; [right; exact Hy | done].
Qed.

Lemma pop_n_heads p h l k :
  chain p h l → k < length l →
  ∃ x q, pop_n k p h = Returns (x, q) ∧ l !! k = Some x ∧ x ≠ end_.
Proof.
  revert p h l. induction k as [|k IH]; intros p h [|x l] Hc Hk; simpl in Hk; try lia.
  - apply chain_cons in Hc as [-> (n & E & _)].
    exists x, p. split; [done|]. split; [done|]. intros ->. discriminate.
  - pose proof (chain_NoDup _ _ _ Hc) as [Hxl _]%NoDup_cons.
    apply chain_cons in Hc as [-> (n & E & Hc)].
    destruct (pop_effect p x n E) as (p1 & Hpop & _ & _ & Hfr & _).
    assert (chain p1 (node_next n) l) as Hc1.
    { eapply chain_frame; [|exact Hc]. intros y Hy. apply Hfr. by intros ->. }
    destruct (IH _ _ _ Hc1) as (y & q & Hq & Hy & Hne); [lia|].
    exists y, q. simpl. rewrite Hpop. done.
Qed.

(** *** Capacity *)

Lemma push_capacity p v h x p' :
  push p v h = Returns (x, p') → capacity p ≤ capacity p'.
Proof.
  destruct (decide (free_nodes p = 0)) as [E|E].
  - rewrite (push_grow _ _ _ E). intros [= _ <-].
    unfold capacity, Vec.capacity. simpl. case_decide; [done|].
    pose proof (grow_gt (Vec.size (pool p))). lia.
  - rewrite (push_reuse _ _ _ E).
    destruct (slot p (free_nodes p)); [|done]. intros [= _ <-].
    by rewrite cap_store.
Qed.

Lemma pop_capacity p x y p' : pop p x = Returns (y, p') → capacity p' = capacity p.
Proof.
  rewrite pop_slot. destruct (slot p x); [|done]. intros [= _ <-].
  unfold set_free_nodes, capacity. simpl. apply cap_store.
Qed.

Lemma free_stack_capacity fuel p x y p' :
  free_stack fuel p x = Some (Returns (y, p')) → capacity p' = capacity p.
Proof.
  revert p x. induction fuel as [|fuel IH]; intros p x; simpl;
    destruct (bool_decide (x = end_)); simpl; try done.
  - by intros [= _ <-].
  - by intros [= _ <-].
  - destruct (pop p x) as [[x1 p1]| |] eqn:Hpop; [|done..].
    intros Hfs. rewrite (IH _ _ Hfs). by eapply pop_capacity.
Qed.

Lemma reserve_capacity p (m : nat) : capacity p ≤ capacity (reserve p m).
Proof. unfold capacity, reserve, Vec.capacity. simpl. case_decide; lia. Qed.

Lemma exec_capacity p c p' :
  exec p c = Some (Returns p') → capacity p ≤ capacity p'.
Proof.
  destruct c as [|v h|x|fuel x|n]; simpl.
  - by intros [= <-].
  - destruct (push p v h) as [[y q]| |] eqn:E; simpl; [|done..].
    intros [= <-]. by eapply push_capacity.
  - destruct (pop p x) as [[y q]| |] eqn:E; simpl; [|done..].
    intros [= <-]. by rewrite (pop_capacity _ _ _ _ E).
  - destruct (free_stack fuel p x) as [[[y q]| |]|] eqn:E; simpl; [|done..].
    intros [= <-]. by rewrite (free_stack_capacity _ _ _ _ _ E).
  - intros [= <-]. apply reserve_capacity.
Qed.

Lemma pops_capacity p xs p' : pops p xs = Returns p' → capacity p' = capacity p.
Proof.
  revert p. induction xs as [|x xs IH]; intros p; simpl.
  - by intros [= <-].
  - destruct (pop p x) as [[y q]| |] eqn:E; simpl; [|done..].
    intros Hp. rewrite (IH _ Hp). by eapply pop_capacity.
Qed.

(** Pushes that find enough free nodes take them in the order of the free
    list and leave the storage as long and as large as it was. *)
Lemma pushes_reuse vhs p lf :
  chain p (free_nodes p) lf → length vhs ≤ length lf →
  ∃ p', pushes p vhs = Returns (take (length vhs) lf, p') ∧
    capacity p' = capacity p ∧
    Vec.size (pool p') = Vec.size (pool p) ∧
    chain p' (free_nodes p') (drop (length vhs) lf).
Proof.
  revert p lf. induction vhs as [|[v h] vhs IH]; intros p lf Hf Hlen.
  - exists p. simpl. rewrite take_0, drop_0. done.
  - destruct lf as [|f lf]; simpl in Hlen; [lia|].
    destruct (push_effect p v h _ Hf ltac:(done))
      as (p1 & Hp & _ & _ & Hf1 & _ & Hsz & Hcap).
    simpl in Hf1, Hsz. unfold fresh in Hp. simpl in Hp.
    destruct (IH p1 lf Hf1) as (p' & Hps & Hcap' & Hsz' & Hf'); [lia|].
    exists p'. simpl. rewrite Hp. simpl. rewrite Hps. simpl.
    split; [done|]. split; [|split; [congruence | done]].
    rewrite Hcap'. by apply Hcap.
Qed.

(** *** The length of the storage *)

Lemma push_size p v h x p' :
  push p v h = Returns (x, p') → Vec.size (pool p) ≤ Vec.size (pool p').
Proof.
  destruct (decide (free_nodes p = 0)) as [E|E].
  - rewrite (push_grow _ _ _ E). intros [= _ <-].
    unfold Vec.size. simpl. rewrite length_app. lia.
  - rewrite (push_reuse _ _ _ E).
    destruct (slot p (free_nodes p)); [|done]. intros [= _ <-].
    by rewrite size_store.
Qed.

Lemma pop_size p x y p' :
  pop p x = Returns (y, p') → Vec.size (pool p') = Vec.size (pool p).
Proof.
  rewrite pop_slot. destruct (slot p x); [|done]. intros [= _ <-].
  unfold set_free_nodes. simpl. apply size_store.
Qed.

Lemma free_stack_size fuel p x y p' :
  free_stack fuel p x = Some (Returns (y, p')) →
  Vec.size (pool p') = Vec.size (pool p).
Proof.
  revert p x. induction fuel as [|fuel IH]; intros p x; simpl;
    destruct (bool_decide (x = end_)); simpl; try done.
  - by intros [= _ <-].
  - by intros [= _ <-].
  - destruct (pop p x) as [[x1 p1]| |] eqn:Hpop; [|done..].
    intros Hfs. rewrite (IH _ _ Hfs). by eapply pop_size.
Qed.

Lemma push_grow_size p v h x p' :
  free_nodes p = 0 → push p v h = Returns (x, p') →
  Vec.size (pool p') = S (Vec.size (pool p)).
Proof.
  intros E. rewrite (push_grow _ _ _ E). intros [= _ <-].
  unfold Vec.size. simpl. rewrite length_app. simpl. lia.
Qed.

Lemma push_returns p v h lf :
  chain p (free_nodes p) lf → ∃ x p', push p v h = Returns (x, p').
Proof.
  intros Hf. destruct lf as [|f lf].
  - apply chain_nil in Hf. rewrite (push_grow _ _ _ Hf). eauto.
  - apply chain_cons in Hf as [Hfree (n & E & _)].
    assert (free_nodes p ≠ 0) as Hne by (intros E0; rewrite Hfree, E0 in *; discriminate).
    rewrite (push_reuse _ _ _ Hne), Hfree, E. eauto.
Qed.

(** *** The lists of a client *)

Lemma concat_lookup (ls : list (list nat)) i li :
  ls !! i = Some li → concat ls ≡ₚ li ++ concat (delete i ls).
Proof.
  revert i. induction ls as [|a ls IH]; intros [|i]; simpl; try done.
  - by intros [= ->].
  - intros Hi. rewrite (IH _ Hi), !app_assoc. f_equiv. apply Permutation_app_comm.
Qed.

Lemma concat_insert (ls : list (list nat)) i li l' :
  ls !! i = Some li → concat (<[i:=l']> ls) ≡ₚ l' ++ concat (delete i ls).
Proof.
  revert i. induction ls as [|a ls IH]; intros [|i]; simpl; try done.
  intros Hi. rewrite (IH _ Hi), !app_assoc. f_equiv. apply Permutation_app_comm.
Qed.

Lemma elem_of_concat_lookup (ls : list (list nat)) j lj y :
  ls !! j = Some lj → y ∈ lj → y ∈ concat ls.
Proof.
  intros Hj Hy. rewrite (concat_lookup _ _ _ Hj). apply elem_of_app. by left.
Qed.

Lemma elem_of_concat_delete (ls : list (list nat)) i j lj y :
  i ≠ j → ls !! j = Some lj → y ∈ lj → y ∈ concat (delete i ls).
Proof.
  intros Hij Hj Hy. destruct (decide (j < i)).
  - eapply (elem_of_concat_lookup _ j); [|done]. by rewrite list_lookup_delete_lt.
  - destruct j as [|j]; [lia|].
    eapply (elem_of_concat_lookup _ j); [|done].
    rewrite list_lookup_delete_ge by lia. done.
Qed.

(** One stack and the free list change, the other stacks stay. *)
Lemma lists_update (c : client T) lf ls i h li p' h' lf' l' :
  lists c lf ls → stacks c !! i = Some h → ls !! i = Some li →
  chain p' (free_nodes p') lf' → chain p' h' l' →
  (∀ y, y ∉ lf ++ li → 1 ≤ y ≤ Vec.size (pool (the_pool c)) →
        slot p' y = slot (the_pool c) y) →
  NoDup (lf' ++ l') →
  (∀ y, y ∈ lf' ++ l' ↔
        y ∈ lf ++ li ∨ Vec.size (pool (the_pool c)) < y ≤ Vec.size (pool p')) →
  Vec.size (pool (the_pool c)) ≤ Vec.size (pool p') →
  lists (Client p' (<[i:=h']> (stacks c))) lf' (<[i:=l']> ls).
Proof.
  intros (Hf & Hs & Hnd & Hcov) Hh Hli Hf' Hl' Hfr Hnd' Hmem Hsz.
  pose proof (concat_lookup _ _ _ Hli) as Hperm.
  assert (lf ++ concat ls ≡ₚ (lf ++ li) ++ concat (delete i ls)) as Hall.
  { by rewrite Hperm, app_assoc. }
  assert (lf' ++ concat (<[i:=l']> ls) ≡ₚ (lf' ++ l') ++ concat (delete i ls)) as Hall'.
  { by rewrite (concat_insert _ _ _ _ Hli), app_assoc. }
  rewrite Hall in Hnd. apply NoDup_app in Hnd as (Hnd1 & Hdis & Hnd2).
  assert (∀ y, y ∈ concat (delete i ls) → 1 ≤ y ≤ Vec.size (pool (the_pool c))) as Hrest.
  { intros y Hy. apply Hcov. rewrite Hall. apply elem_of_app. by right. }
  split; [done|]. split; [|split].
  - simpl. apply Forall2_same_length_lookup_2.
    { rewrite !length_insert. by eapply Forall2_length. }
    intros j a b [(-> & <- & _)|(Hij & Ha)]%list_lookup_insert_Some
                 [(Hij' & <- & _)|(Hij' & Hb)]%list_lookup_insert_Some; try done.
    eapply chain_frame; [|by eapply Forall2_lookup_lr].
    intros y Hy.
    assert (y ∈ concat (delete i ls)) as Hyr by (by eapply elem_of_concat_delete).
    apply Hfr; [|by apply Hrest]. intros Hin. by eapply Hdis.
  - rewrite Hall'. apply NoDup_app. split; [done|]. split; [|done].
    intros y [Hy|Hy]%Hmem Hyr.
    + by eapply Hdis.
    + apply Hrest in Hyr. lia.
  - intros y. simpl. rewrite Hall', elem_of_app, Hmem.
    specialize (Hcov y). rewrite Hall, elem_of_app in Hcov.
    split.
    + intros [[Hy|Hy]|Hy]; [| lia |]; (assert (1 ≤ y ≤ Vec.size (pool (the_pool c)));
        [apply Hcov; auto | lia]).
    + intros Hy. destruct (decide (y ≤ Vec.size (pool (the_pool c)))) as [Hle|Hgt].
      * assert (1 ≤ y ≤ Vec.size (pool (the_pool c))) as Hin by lia.
        apply Hcov in Hin as [?|?]; auto.
      * left. right. lia.
Qed.

(** The same, when the two lists only exchange nodes. *)
Lemma lists_exchange (c : client T) lf ls i h li p' h' lf' l' :
  lists c lf ls → stacks c !! i = Some h → ls !! i = Some li →
  chain p' (free_nodes p') lf' → chain p' h' l' →
  (∀ y, y ∉ lf ++ li → slot p' y = slot (the_pool c) y) →
  lf' ++ l' ≡ₚ lf ++ li →
  Vec.size (pool p') = Vec.size (pool (the_pool c)) →
  lists (Client p' (<[i:=h']> (stacks c))) lf' (<[i:=l']> ls).
Proof.
  intros Hlists Hh Hli Hf' Hl' Hfr Hperm Hsz.
  eapply lists_update; eauto.
  - rewrite Hperm. destruct Hlists as (_ & _ & Hnd & _).
    rewrite (concat_lookup _ _ _ Hli), app_assoc in Hnd.
    by apply NoDup_app in Hnd as (? & _).
  - intros y. rewrite Hperm, Hsz. split; [auto|]. intros [?|?]; [done | lia].
  - lia.
Qed.

Lemma lists_stack (c : client T) lf ls i h :
  lists c lf ls → stacks c !! i = Some h →
  ∃ li, ls !! i = Some li ∧ chain (the_pool c) h li ∧ NoDup (lf ++ li) ∧
        (∀ y, y ∈ lf ++ li → 1 ≤ y ≤ Vec.size (pool (the_pool c))).
Proof.
  intros (Hf & Hs & Hnd & Hcov) Hh.
  destruct (Forall2_lookup_l _ _ _ _ _ Hs Hh) as (li & Hli & Hc).
  exists li. split; [done|]. split; [done|].
  rewrite (concat_lookup _ _ _ Hli), app_assoc in Hnd.
  apply NoDup_app in Hnd as (Hnd & _). split; [done|].
  intros y Hy. apply Hcov. rewrite (concat_lookup _ _ _ Hli), app_assoc.
  apply elem_of_app. by left.
Qed.

(** *** The operations keep the lists apart *)

Lemma push_lists (c : client T) lf ls i h v :
  lists c lf ls → stacks c !! i = Some h →
  (lf = [] → representable (S (Vec.size (pool (the_pool c))))) →
  ∃ x p' lf' ls', push (the_pool c) v h = Returns (x, p') ∧
    lists (Client p' (<[i:=x]> (stacks c))) lf' ls'.
Proof.
  intros Hlists Hh Hrep. pose proof Hlists as (Hf & _).
  destruct (lists_stack _ _ _ _ _ Hlists Hh) as (li & Hli & Hc & Hnd & Hrange).
  destruct (push_effect (the_pool c) v h lf Hf Hrep)
    as (p' & Hp & Hx & Hfr & Hf' & _ & Hsz & _).
  set (x := fresh (the_pool c) lf) in *.
  assert (x ∉ li) as Hxli.
  { intros Hin. destruct lf as [|f lf]; unfold x, fresh in *; simpl in *.
    - specialize (Hrange _ Hin). lia.
    - apply NoDup_cons in Hnd as [Hnd _]. apply Hnd, elem_of_app. by right. }
  assert (chain p' x (x :: li)) as Hc'.
  { apply chain_cons. split; [done|]. eexists. split; [exact Hx|]. simpl.
    eapply chain_frame; [|exact Hc]. intros y Hy. apply Hfr. by intros ->. }
  exists x, p', (tail lf), (<[i:=x :: li]> ls). split; [done|].
  eapply lists_update; eauto.
  - intros y Hy Hle. apply Hfr. intros ->.
    destruct lf as [|f lf]; unfold x, fresh in *; simpl in *; [lia|].
    apply Hy. left.
  - destruct lf as [|f lf]; simpl.
    + apply NoDup_cons. split; [done|]. by eapply chain_NoDup.
    + unfold x, fresh in *. simpl in *. by rewrite <- Permutation_middle.
  - intros y. destruct lf as [|f lf]; unfold x, fresh in *; simpl in *.
    + rewrite Hsz, elem_of_cons. split; [intros [->|?]; [right; lia | by left]|].
      intros [?|?]; [by right | left; lia].
    + rewrite Hsz, <- Permutation_middle. split; [by left|]. intros [?|?]; [done | lia].
  - destruct lf; lia.
Qed.

Lemma pop_lists (c : client T) lf ls i h :
  lists c lf ls → stacks c !! i = Some h → h ≠ end_ →
  ∃ x p' lf' ls', pop (the_pool c) h = Returns (x, p') ∧
    lists (Client p' (<[i:=x]> (stacks c))) lf' ls'.
Proof.
  intros Hlists Hh Hne. pose proof Hlists as (Hf & _).
  destruct (lists_stack _ _ _ _ _ Hlists Hh) as (li & Hli & Hc & Hnd & _).
  destruct (chain_head _ _ _ Hc Hne) as (li0 & ->).
  apply chain_cons in Hc as [_ (n & E & Hc)].
  destruct (pop_effect _ _ _ E) as (p' & Hp & Hfree & Hx & Hfr & Hsz & _).
  rewrite <- Permutation_middle in Hnd. apply NoDup_cons in Hnd as [Hnin Hnd].
  rewrite elem_of_app in Hnin.
  exists (node_next n), p', (h :: lf), (<[i:=li0]> ls). split; [done|].
  eapply lists_exchange; eauto.
  - rewrite Hfree. apply chain_cons. split; [done|]. eexists. split; [exact Hx|].
    simpl. eapply chain_frame; [|exact Hf]. intros y Hy. apply Hfr.
    intros ->. tauto.
  - eapply chain_frame; [|exact Hc]. intros y Hy. apply Hfr. intros ->. tauto.
  - intros y Hy. apply Hfr. intros ->. apply Hy, elem_of_app. right. left.
  - simpl. by rewrite <- Permutation_middle.
Qed.

Lemma free_stack_lists (c : client T) lf ls i h (fuel : nat) r :
  lists c lf ls → stacks c !! i = Some h →
  free_stack fuel (the_pool c) h = Some r →
  ∃ p' lf' ls', r = Returns (end_, p') ∧
    lists (Client p' (<[i:=end_]> (stacks c))) lf' ls'.
Proof.
  intros Hlists Hh Hr. pose proof Hlists as (Hf & _).
  destruct (lists_stack _ _ _ _ _ Hlists Hh) as (li & Hli & Hc & Hnd & _).
  destruct (free_stack_chain _ _ _ Hc) as (p' & Hfs & _ & Hfr & Hsz & _ & Hfl).
  apply NoDup_app in Hnd as (_ & Hdis & _).
  exists p', (reverse li ++ lf), (<[i:=[]]> ls). split.
  - pose proof (free_stack_fuel _ (fuel `max` length li) _ _ _ Hr) as Hr'.
    rewrite Hfs in Hr' by lia. symmetry. apply (inj Some), Hr'. lia.
  - eapply lists_exchange; [exact Hlists | exact Hh | exact Hli | | | | | exact Hsz].
    + apply Hfl; [done|]. intros x Hx Hx'. by eapply Hdis.
    + done.
    + intros y Hy. apply Hfr. intros Hin. apply Hy, elem_of_app. by right.
    + rewrite app_nil_r, reverse_Permutation. apply Permutation_app_comm.
Qed.

Lemma free_stack_returns (c : client T) lf ls i h (fuel : nat) :
  lists c lf ls → stacks c !! i = Some h →
  Vec.size (pool (the_pool c)) ≤ fuel →
  ∃ p', free_stack fuel (the_pool c) h = Some (Returns (end_, p')).
Proof.
  intros Hlists Hh Hfuel.
  destruct (lists_stack _ _ _ _ _ Hlists Hh) as (li & Hli & Hc & _).
  destruct (free_stack_chain _ _ _ Hc) as (p' & Hfs & _).
  exists p'. apply Hfs. pose proof (chain_length _ _ _ Hc). lia.
Qed.

Lemma step_size (c : client T) o c' :
  step c o = Some c' →
  Vec.size (pool (the_pool c)) ≤ Vec.size (pool (the_pool c')).
Proof.
  destruct o as [|i v|i|i fuel|m]; simpl.
  - by intros [= <-].
  - destruct (stacks c !! i) as [h|]; simpl; [|done].
    destruct (push (the_pool c) v h) as [[x p']| |] eqn:E; simpl; [|done..].
    intros [= <-]. by eapply push_size.
  - destruct (stacks c !! i) as [h|]; simpl; [|done].
    destruct (empty h); [done|].
    destruct (pop (the_pool c) h) as [[x p']| |] eqn:E; simpl; [|done..].
    intros [= <-]. simpl. by rewrite (pop_size _ _ _ _ E).
  - destruct (stacks c !! i) as [h|]; simpl; [|done].
    destruct (free_stack fuel (the_pool c) h) as [[[x p']| |]|] eqn:E; simpl; [|done..].
    intros [= <-]. simpl. by rewrite (free_stack_size _ _ _ _ _ E).
  - by intros [= <-].
Qed.

Lemma run_size (os : list (op T)) (c c' : client T) :
  run c os = Some c' →
  Vec.size (pool (the_pool c)) ≤ Vec.size (pool (the_pool c')).
Proof.
  revert c. induction os as [|o os IH]; intros c; simpl.
  - by intros [= <-].
  - destruct (step c o) as [c1|] eqn:Hstep; simpl; [|done].
    intros Hrun. etrans; [by eapply step_size | by apply IH].
Qed.

(** A call keeps the lists apart when the storage it leaves is within the
    range of the index type. *)
Lemma step_well_formed (c : client T) o c' :
  well_formed c → step c o = Some c' →
  representable (Vec.size (pool (the_pool c'))) →
  well_formed c'.
Proof.
  intros (lf & ls & Hlists). destruct o as [|i v|i|i fuel|m]; simpl.
  - intros [= <-] _. exists lf, (ls ++ [[]]).
    destruct Hlists as (Hf & Hs & Hnd & Hcov).
    split; [done|]. split; [|split].
    + simpl. apply Forall2_app; [done|]. by constructor.
    + rewrite concat_app. simpl. by rewrite app_nil_r.
    + intros y. rewrite concat_app. simpl. rewrite app_nil_r. apply Hcov.
  - destruct (stacks c !! i) as [h|] eqn:Hh; simpl; [|done].
    destruct (push (the_pool c) v h) as [[x p']| |] eqn:Hpush; simpl; [|done..].
    intros [= <-] Hrep. simpl in Hrep.
    destruct (push_lists c lf ls i h v Hlists Hh) as (x' & p'' & lf' & ls' & Hp & Hl').
    { intros ->. destruct Hlists as (Hf & _). apply chain_nil in Hf.
      by rewrite <- (push_grow_size _ _ _ _ _ Hf Hpush). }
    rewrite Hpush in Hp. injection Hp as <- <-. by exists lf', ls'.
  - destruct (stacks c !! i) as [h|] eqn:Hh; simpl; [|done].
    unfold empty. case_bool_decide as Hne; [done|].
    destruct (pop_lists c lf ls i h Hlists Hh Hne) as (x & p' & lf' & ls' & -> & Hl').
    simpl. intros [= <-] _. by exists lf', ls'.
  - destruct (stacks c !! i) as [h|] eqn:Hh; simpl; [|done].
    destruct (free_stack fuel (the_pool c) h) as [r|] eqn:Hr; simpl; [|done].
    destruct (free_stack_lists c lf ls i h fuel r Hlists Hh Hr)
      as (p' & lf' & ls' & -> & Hl').
    simpl. intros [= <-] _. by exists lf', ls'.
  - intros [= <-] _. exists lf, ls.
    destruct Hlists as (Hf & Hs & Hnd & Hcov).
    split; [|split; [|done]].
    + apply (chain_frame (the_pool c)); [intros; reflexivity | exact Hf].
    + eapply Forall2_impl; [exact Hs|]. intros h l Hc.
      apply (chain_frame (the_pool c)); [intros; reflexivity | exact Hc].
Qed.

Lemma sized_pool_well_formed (m : nat) :
  lists (Client (sized_pool (T:=T) m) []) [] [].
Proof.
  split; [done|]. split; [constructor|]. split; [constructor|].
  intros x. simpl. split; [by intros ?%elem_of_nil | unfold Vec.size; simpl; lia].
Qed.

Lemma run_well_formed (os : list (op T)) (c0 c : client T) :
  well_formed c0 → run c0 os = Some c →
  representable (Vec.size (pool (the_pool c))) →
  well_formed c.
Proof.
  revert c0. induction os as [|o os IH]; intros c0 Hwf; simpl.
  - by intros [= <-].
  - destruct (step c0 o) as [c1|] eqn:Hstep; simpl; [|done].
    intros Hrun Hrep. apply (IH c1); [|done..].
    eapply step_well_formed; [done..|].
    eapply representable_le; [by eapply run_size | done].
Qed.

(** The pool answers every call that a well-formed client makes within the
    contract. *)
Lemma step_progress (c : client T) o :
  well_formed c → legal c o → is_Some (step c o).
Proof.
  intros (lf & ls & Hlists). destruct o as [|i v|i|i fuel|m]; simpl; try done.
  - intros [h Hh]%lookup_lt_is_Some. rewrite Hh. simpl.
    destruct Hlists as (Hf & _).
    destruct (push_returns (the_pool c) v h lf Hf) as (x & p' & ->). done.
  - intros (h & Hh & Hne). rewrite Hh. simpl.
    unfold empty. rewrite bool_decide_eq_false_2 by done.
    destruct (pop_lists c lf ls i h Hlists Hh Hne) as (x & p' & _ & _ & -> & _).
    done.
  - intros [[h Hh]%lookup_lt_is_Some Hfuel]. rewrite Hh. simpl.
    destruct (free_stack_returns c lf ls i h fuel Hlists Hh Hfuel) as (p' & ->).
    done.
Qed.

(** *** The claims *)

(** C1 (LIFO law), as amended. In a pool whose free list is a chain,
    pushing [v1, ..., vk] one after the other onto the empty stack
    [new_stack()] returns a head from which the iterator yields
    [vk, ..., v1] and then equals the end iterator (index [0]), after
    exactly [k] increments, provided that the length the storage reaches,
    its length plus the number of pushes that find no free node, is a value
    of the index type. *)
Theorem lifo_law p (vs : list T) lf :
  chain p (free_nodes p) lf →
  representable (Vec.size (pool p) + (length vs - length lf)) →
  ∃ h p', push_all p vs (new_stack p) = Returns (h, p') ∧
    traverse (length vs) (begin_ p' h) (end_of p' h) = Some (Returns (reverse vs)).
Proof.
  intros Hf Hrep.
  destruct (push_all_chain vs p (new_stack p) [] lf) as (h & p' & l & Hp & Hc & Hv);
    [done | done | by intros x ?%elem_of_nil | done |].
  rewrite app_nil_r in *. exists h, p'. split; [done|].
  pose proof (contents_length _ _ _ Hc) as Hlen.
  rewrite Hv, length_app, length_reverse in Hlen. simpl in Hlen.
  replace (length vs) with (length l) by lia.
  rewrite (traverse_chain _ _ h _ Hc), Hv. simpl. by rewrite app_nil_r.
Qed.

(** C2 (pop/push duality), as amended. When the head of the free list is a
    node of the pool, or is the sentinel and the length of the storage plus
    one is a value of the index type, [push(v, h)] returns a head [x], and
    [pop(x)] right after it returns [h]. *)
Theorem pop_push p v h :
  free_nodes p ≤ Vec.size (pool p) →
  (free_nodes p = 0 → representable (S (Vec.size (pool p)))) →
  ∃ x p' p'', push p v h = Returns (x, p') ∧ pop p' x = Returns (h, p'').
Proof.
  intros Hle Hrep. destruct (decide (free_nodes p = 0)) as [E|E].
  - rewrite (push_grow _ _ _ E), cast_index_representable by auto.
    do 3 eexists. split; [reflexivity|].
    rewrite pop_slot. simpl. rewrite lookup_app_r by done.
    rewrite Nat.sub_diag. reflexivity.
  - rewrite (push_reuse _ _ _ E).
    destruct (slot p (free_nodes p)) as [n|] eqn:En.
    + do 3 eexists. split; [reflexivity|].
      rewrite pop_slot. erewrite slot_store_eq by exact En. reflexivity.
    + apply slot_None in En. lia.
Qed.

(** C3 (the algorithm of push), as amended. When the head of the free list
    is the sentinel, [push(val, head)] appends the node [{val, head}] to the
    storage and returns the new length of the storage converted to the
    index type, which is that length, the index of the new node, when the
    length is a value of the index type; otherwise it returns the head [f]
    of the free list, after making the [next] of [f] the head of the free
    list and writing [{val, head}] into [f]. (A head of the free list
    outside the storage is undefined behaviour.) *)
Theorem push_algorithm p v h :
  push p v h =
    (if decide (free_nodes p = 0) then
       Returns (cast_index (length (Vec.elems (pool p) ++ [Node v h])),
                Pool (Vec.Vector (Vec.elems (pool p) ++ [Node v h])
                                 (Vec.capacity (Vec.push_back (pool p) (Node v h))))
                     (free_nodes p))
     else
       match slot p (free_nodes p) with
       | Some n =>
           Returns (free_nodes p,
                    Pool (Vec.Vector (<[free_nodes p - 1 := Node v h]> (Vec.elems (pool p)))
                                     (Vec.capacity (pool p)))
                         (node_next n))
       | None => Undefined
       end) ∧
  (representable (length (Vec.elems (pool p) ++ [Node v h])) →
   cast_index (length (Vec.elems (pool p) ++ [Node v h]))
   = length (Vec.elems (pool p) ++ [Node v h])).
Proof.
  split; [|apply cast_index_representable].
  case_decide as E.
  - rewrite (push_grow _ _ _ E), E, length_app. simpl.
    do 3 f_equal. unfold Vec.size. lia.
  - rewrite (push_reuse _ _ _ E). destruct (slot p (free_nodes p)); [|done].
    destruct (free_nodes p) as [|i]; [done|]. simpl. by rewrite Nat.sub_0_r.
Qed.

(** C5 (free_stack is pop until empty). For a stack [h] that is a chain [l]
    of the pool, [free_stack(h)] returns (with fuel for [length l] rounds)
    the sentinel, for which [empty] holds, and the pool that [length l]
    successive calls [h = pop(h)] leave; these calls pop the nodes of [l] in
    order, none of them the sentinel, and the last returns the sentinel. *)
Theorem free_stack_pops p h l (fuel : nat) :
  chain p h l → length l ≤ fuel →
  ∃ p', free_stack fuel p h = Some (Returns (end_, p')) ∧
    pop_n (length l) p h = Returns (end_, p') ∧
    (∀ k, k < length l →
       ∃ x q, pop_n k p h = Returns (x, q) ∧ l !! k = Some x ∧ x ≠ end_) ∧
    empty end_ = true.
Proof.
  intros Hc Hfuel.
  destruct (free_stack_chain p h l Hc) as (p' & Hfs & Hpn & _).
  exists p'. split; [by apply Hfs|]. split; [done|]. split; [|done].
  intros k Hk. by eapply pop_n_heads.
Qed.


(** C7 (iterator equality). [operator==] holds exactly when the two indices
    are equal, whatever the pools pointed to; [operator!=] is its negation;
    and two iterators at the sentinel are equal. *)
Theorem iterator_equality (a b : MyIterator T) :
  (operator_eq a b = true ↔ StackIndex a = StackIndex b) ∧
  operator_neq a b = negb (operator_eq a b) ∧
  (∀ p q, operator_eq (Iterator p end_) (Iterator q end_) = true) ∧
  (∀ p q x, operator_eq (Iterator p x) (Iterator q x) = true).
Proof.
  unfold operator_eq, operator_neq. split; [apply bool_decide_eq_true|].
  split; [done|]. split; intros; by apply bool_decide_eq_true.
Qed.

(** C8 (recycling). After [m] pops, [m] pushes that find at least [m] nodes
    on the free list return the first [m] nodes of the free list and leave
    [capacity()] as it was before the pops, and the storage as long as it
    was: no node is appended. *)
Theorem recycling p (xs : list nat) p1 lf (vhs : list (T * nat)) :
  pops p xs = Returns p1 →
  chain p1 (free_nodes p1) lf →
  length vhs = length xs →
  length xs ≤ length lf →
  ∃ p2, pushes p1 vhs = Returns (take (length xs) lf, p2) ∧
    capacity p2 = capacity p ∧
    capacity p2 = capacity p1 ∧
    Vec.size (pool p2) = Vec.size (pool p1).
Proof.
  intros Hpops Hf Hm Hle.
  destruct (pushes_reuse vhs p1 lf Hf) as (p2 & Hps & Hcap & Hsz & _); [lia|].
  exists p2. rewrite <- Hm. split; [done|]. split; [|done].
  rewrite Hcap. by eapply pops_capacity.
Qed.

(** C9 (monotonic capacity). Over a sequence of calls of [new_stack],
    [push], [pop], [free_stack] and [reserve], with any arguments, that all
    return, [capacity()] at the end is at least what it was at the start. *)
Theorem capacity_monotone p (cs : list (call T)) p' :
  exec_all p cs = Some (Returns p') → capacity p ≤ capacity p'.
Proof.
  revert p. induction cs as [|c cs IH]; intros p; simpl.
  - by intros [= <-].
  - destruct (exec p c) as [[q| |]|] eqn:E; [|done..].
    intros Hall. etrans; [by eapply exec_capacity | by apply IH].
Qed.

(** C10 (frame of the reuse path). When the head [f] of the free list is a
    node [n] of the pool, [push(val, head)] returns [f]; afterwards the free
    list starts at the former [next] of [f], the node [f] is [{val, head}],
    every other node is as it was, and the storage has the length and the
    capacity it had. *)
Theorem push_reuse_frame p v h n :
  slot p (free_nodes p) = Some n →
  ∃ p', push p v h = Returns (free_nodes p, p') ∧
    free_nodes p' = node_next n ∧
    slot p' (free_nodes p) = Some (Node v h) ∧
    (∀ y, y ≠ free_nodes p → slot p' y = slot p y) ∧
    Vec.size (pool p') = Vec.size (pool p) ∧
    capacity p' = capacity p.
Proof.
  intros E.
  assert (free_nodes p ≠ 0) as Hne by (intros E0; rewrite E0 in E; discriminate).
  rewrite (push_reuse _ _ _ Hne), E. eexists. split; [reflexivity|].
  split; [by rewrite free_nodes_store|]. split; [by eapply slot_store_eq|].
  split; [intros y Hy; by rewrite slot_store_ne|].
  split; [by rewrite size_store | by rewrite cap_store].
Qed.

(** A pool pre-sized to no node is the default pool. *)
Lemma sized_pool_0 : sized_pool 0 = default_pool (T:=T).
Proof. reflexivity. Qed.

(** C4 (the lists stay apart), as amended. From a default or pre-sized
    pool and no stack, after any sequence of [new_stack], [push], [pop],
    [free_stack] and [reserve] calls, each on the current head of a stack
    of the client, that leaves a storage whose length is a value of the
    index type, the free list and the stacks are chains ending at the
    sentinel (so without a cycle), no node is on two of them or twice on
    one, and every node of the storage is on one of them. *)
Theorem reachable_lists (m : nat) (os : list (op T)) c :
  run (Client (sized_pool m) []) os = Some c →
  representable (Vec.size (pool (the_pool c))) →
  ∃ lf ls,
    chain (the_pool c) (free_nodes (the_pool c)) lf ∧
    Forall2 (chain (the_pool c)) (stacks c) ls ∧
    NoDup (lf ++ concat ls) ∧
    (∀ x, x ∈ lf ++ concat ls ↔ 1 ≤ x ≤ Vec.size (pool (the_pool c))).
Proof.
  intros Hrun Hrep.
  eapply (run_well_formed os); [|exact Hrun | exact Hrep].
  eexists _, _. apply sized_pool_well_formed.
Qed.

End properties.

(** ** Further properties of the code *)

Section further.
Context {T : Type} {Idx : IndexType} `{GrowthPolicy}.
Implicit Types (p : stack_pool T) (n : node_t T) (l : list nat) (v : T).

(** *** Accessors *)


(** X11 (push reads back). When the head of the free list is a node of the
    pool, or is the sentinel and the length of the storage plus one is a
    value of the index type, [push(val, head)] returns a head that is not
    the sentinel and is a node of the pool, from which [value] reads [val]
    and [next] reads [head]; the storage does not shrink. *)
Theorem push_reads_back p v h :
  free_nodes p ≤ Vec.size (pool p) →
  (free_nodes p = 0 → representable (S (Vec.size (pool p)))) →
  ∃ x p', push p v h = Returns (x, p') ∧
    value p' x = Returns v ∧ next p' x = Returns h ∧
    empty x = false ∧ 1 ≤ x ≤ Vec.size (pool p') ∧
    Vec.size (pool p) ≤ Vec.size (pool p').
Proof.
  intros Hle Hrep. unfold value, next.
  assert (∃ x p', push p v h = Returns (x, p') ∧ slot p' x = Some (Node v h) ∧
                  Vec.size (pool p) ≤ Vec.size (pool p')) as (x & p' & Hp & Hx & Hsz).
  { destruct (decide (free_nodes p = 0)) as [E|E].
    - rewrite (push_grow _ _ _ E), cast_index_representable by auto.
      do 2 eexists. split; [reflexivity|]. simpl.
      split; [|unfold Vec.size; simpl; rewrite length_app; lia].
      rewrite lookup_app_r by done. by rewrite Nat.sub_diag.
    - rewrite (push_reuse _ _ _ E).
      destruct (slot p (free_nodes p)) as [n|] eqn:En.
      + do 2 eexists. split; [reflexivity|].
        split; [by eapply slot_store_eq | by rewrite size_store].
      + apply slot_None in En. lia. }
  exists x, p'. rewrite !node_slot, Hx. simpl.
  assert (1 ≤ x ≤ Vec.size (pool p')) by (apply slot_is_Some; eauto).
  repeat split; try done; try lia.
  unfold empty, end_. apply bool_decide_eq_false_2. lia.
Qed.

(** X12 (writing a value). The write [value(x) = v] on a node of the pool
    changes the value of that node and nothing else: its [next], every
    other node, the free list, every chain, the length and the capacity of
    the storage stay. *)
Theorem set_value_frame p x v n :
  slot p x = Some n →
  ∃ p', set_value p x v = Returns p' ∧
    value p' x = Returns v ∧ next p' x = Returns (node_next n) ∧
    (∀ y, y ≠ x → slot p' y = slot p y) ∧
    free_nodes p' = free_nodes p ∧
    (∀ h l, chain p h l → chain p' h l) ∧
    Vec.size (pool p') = Vec.size (pool p) ∧ capacity p' = capacity p.
Proof.
  intros E. unfold set_value, value, next. rewrite node_slot, E. simpl.
  rewrite set_node_slot, E. eexists. split; [reflexivity|].
  rewrite !node_slot, (slot_store_eq _ _ _ _ E). simpl.
  split; [done|]. split; [done|].
  split; [intros y Hy; by rewrite slot_store_ne|].
  split; [by rewrite free_nodes_store|].
  split; [|split; [by rewrite size_store | by rewrite cap_store]].
  intros h l. revert h. induction l as [|y l IH]; intros h; [done|].
  rewrite !chain_cons. intros [-> (n' & E' & Hc)]. split; [done|].
  destruct (decide (x = y)) as [->|Hxy].
  - eexists. split; [by eapply slot_store_eq|]. simpl.
    assert (n' = n) as -> by congruence. by apply IH.
  - exists n'. rewrite slot_store_ne by done. split; [done|]. by apply IH.
Qed.

(** *** [pop] *)

Lemma pop_values p x y p' z :
  pop p x = Returns (y, p') → node_value <$> slot p' z = node_value <$> slot p z.
Proof.
  rewrite pop_slot. destruct (slot p x) as [n|] eqn:E; [|done].
  intros [= _ <-]. change (slot (set_free_nodes ?q _) ?y) with (slot q y).
  rewrite slot_store, E. simpl. case_decide as Hxz; [|done].
  subst z. by rewrite E.
Qed.

(** X1 (frame of pop). [pop(x)] on a node of the pool returns the [next] of
    [x], makes [x] the head of the free list with the former head as its
    [next], and leaves the value of [x] in place; every other node, the
    length and the capacity of the storage stay. If [x] was not on the free
    list, the free list is the former one with [x] in front. *)
Theorem pop_frame p x n :
  slot p x = Some n →
  ∃ p', pop p x = Returns (node_next n, p') ∧
    free_nodes p' = x ∧
    next p' x = Returns (free_nodes p) ∧
    value p' x = Returns (node_value n) ∧
    (∀ y, y ≠ x → slot p' y = slot p y) ∧
    Vec.size (pool p') = Vec.size (pool p) ∧
    capacity p' = capacity p ∧
    (∀ lf, chain p (free_nodes p) lf → x ∉ lf → chain p' (free_nodes p') (x :: lf)).
Proof.
  intros E.
  destruct (pop_effect p x n E) as (p' & Hp & Hfree & Hx & Hfr & Hsz & Hcap).
  exists p'. unfold next, value. rewrite !node_slot, Hx. simpl.
  do 7 (split; [done|]).
  intros lf Hf Hnin. rewrite Hfree. apply chain_cons. split; [done|].
  eexists. split; [exact Hx|]. simpl.
  eapply chain_frame; [|exact Hf]. intros y Hy. apply Hfr. by intros ->.
Qed.

(** X5 (pop, then push). After [pop(x)] the next [push] returns [x] and
    gives the free list its former head; pushing the value and the [next]
    that [x] had restores the pool as it was before the [pop]. *)
Theorem pop_then_push p x n :
  slot p x = Some n →
  ∃ p1, pop p x = Returns (node_next n, p1) ∧
    (∀ v h, ∃ p2, push p1 v h = Returns (x, p2) ∧
       free_nodes p2 = free_nodes p ∧
       slot p2 x = Some (Node v h) ∧
       (∀ y, y ≠ x → slot p2 y = slot p y) ∧
       capacity p2 = capacity p) ∧
    push p1 (node_value n) (node_next n) = Returns (x, p).
Proof.
  intros E. rewrite pop_slot, E. eexists. split; [reflexivity|].
  set (p1 := set_free_nodes _ _).
  assert (x ≠ 0) as Hx by (intros ->; discriminate).
  assert (slot p1 x = Some (Node (node_value n) (free_nodes p))) as E1.
  { unfold p1. change (slot (set_free_nodes ?q _) ?y) with (slot q y).
    by eapply slot_store_eq. }
  assert (∀ v h, push p1 v h =
            Returns (x, store (set_free_nodes p1 (free_nodes p)) x (Node v h))) as Hpush.
  { intros v h. rewrite push_reuse by done.
    change (free_nodes p1) with x. rewrite E1. reflexivity. }
  split.
  - intros v h. eexists. split; [apply Hpush|].
    split; [by rewrite free_nodes_store|].
    split; [by eapply slot_store_eq|].
    split; [|rewrite cap_store; apply cap_store].
    intros y Hy. rewrite slot_store_ne by done.
    change (slot (set_free_nodes ?q _) ?y) with (slot q y).
    unfold p1. change (slot (set_free_nodes ?q _) ?y) with (slot q y).
    by rewrite slot_store_ne.
  - rewrite Hpush. do 2 f_equal.
    destruct p as [[es c] f], x as [|i], n as [nv nn]; [done|].
    simpl in *. unfold store. simpl.
    by rewrite list_insert_insert_eq, list_insert_id.
Qed.

(** X13 (popping a head twice). [pop] does not check that [x] is in use:
    a second [pop(x)] on the same node returns too, and leaves [x] as the
    head of the free list with itself as [next], so that the free list is
    no chain any more and the next two calls of [push] both return [x]. *)
Theorem pop_twice p x n :
  slot p x = Some n →
  ∃ p2, pops p [x; x] = Returns p2 ∧
    free_nodes p2 = x ∧ next p2 x = Returns x ∧
    (∀ l, ¬ chain p2 (free_nodes p2) l) ∧
    (∀ v1 h1 v2 h2, ∃ p4,
       pushes p2 [(v1, h1); (v2, h2)] = Returns ([x; x], p4)).
Proof.
  intros E. assert (x ≠ 0) as Hx by (intros ->; discriminate).
  destruct (pop_effect p x n E) as (p1 & Hp1 & Hf1 & Hx1 & _).
  destruct (pop_effect p1 x _ Hx1) as (p2 & Hp2 & Hf2 & Hx2 & _).
  rewrite Hf1 in Hx2. simpl in Hx2.
  exists p2. simpl. rewrite Hp1. simpl. rewrite Hp2. simpl.
  split; [done|]. split; [done|].
  split; [unfold next; by rewrite node_slot, Hx2|]. split.
  - rewrite Hf2. intros l. induction l as [|y l IH]; [done|].
    rewrite chain_cons. intros [<- (n' & E' & Hc)].
    rewrite Hx2 in E'. injection E' as <-. by apply IH.
  - intros v1 h1 v2 h2. unfold pushes.
    rewrite (push_reuse p2) by (by rewrite Hf2). rewrite Hf2, Hx2. simpl.
    set (p3 := store _ _ _).
    assert (free_nodes p3 = x) as Hf3 by (unfold p3; by rewrite free_nodes_store).
    assert (slot p3 x = Some (Node v1 h1)) as Hx3.
    { unfold p3. eapply slot_store_eq.
      change (slot (set_free_nodes ?q _) ?y) with (slot q y). exact Hx2. }
    rewrite (push_reuse p3) by (by rewrite Hf3). rewrite Hf3, Hx3. simpl.
    eexists. reflexivity.
Qed.

(** *** Storage: length, capacity and the heads [push] returns *)

Lemma exec_size p c p' :
  exec p c = Some (Returns p') → Vec.size (pool p) ≤ Vec.size (pool p').
Proof.
  destruct c as [|v h|x|fuel x|m]; simpl.
  - by intros [= <-].
  - destruct (push p v h) as [[y q]| |] eqn:E; simpl; [|done..].
    intros [= <-]. by eapply push_size.
  - destruct (pop p x) as [[y q]| |] eqn:E; simpl; [|done..].
    intros [= <-]. by rewrite (pop_size _ _ _ _ E).
  - destruct (free_stack fuel p x) as [[[y q]| |]|] eqn:E; simpl; [|done..].
    intros [= <-]. by rewrite (free_stack_size _ _ _ _ _ E).
  - by intros [= <-].
Qed.

(** X14 (indices stay valid). Over a sequence of calls that all return, with
    any arguments, the storage never gets shorter: an index that denotes a
    node keeps denoting one. *)
Theorem storage_never_shrinks p (cs : list (call T)) p' :
  exec_all p cs = Some (Returns p') →
  Vec.size (pool p) ≤ Vec.size (pool p') ∧
  ∀ x, is_Some (slot p x) → is_Some (slot p' x).
Proof.
  intros Hall.
  assert (Vec.size (pool p) ≤ Vec.size (pool p')) as Hsz.
  { revert p Hall. induction cs as [|c cs IH]; intros p; simpl.
    - by intros [= <-].
    - destruct (exec p c) as [[q| |]|] eqn:E; [|done..].
      intros Hall. etrans; [by eapply exec_size | by apply IH]. }
  split; [done|]. intros x. rewrite !slot_is_Some. lia.
Qed.

Lemma pushes_heads vhs p lf :
  chain p (free_nodes p) lf →
  representable (Vec.size (pool p) + (length vhs - length lf)) →
  ∃ p', pushes p vhs =
          Returns (take (length vhs) lf ++
                   seq (S (Vec.size (pool p))) (length vhs - length lf), p') ∧
    Vec.size (pool p') = Vec.size (pool p) + (length vhs - length lf) ∧
    chain p' (free_nodes p') (drop (length vhs) lf) ∧
    capacity p ≤ capacity p' ∧
    (Vec.size (pool p) + length vhs ≤ capacity p + length lf →
     capacity p' = capacity p).
Proof.
  revert p lf. induction vhs as [|[v h] vhs IH]; intros p lf Hf Hrep.
  - exists p. simpl. rewrite ?take_0, ?drop_0. simpl.
    split; [done|]. split; [lia|]. done.
  - destruct lf as [|f lf].
    + pose proof Hf as E%chain_nil.
      set (p1 := Pool (Vec.push_back (pool p) (Node v h)) 0).
      assert (Vec.size (pool p1) = S (Vec.size (pool p))) as Hsz1.
      { unfold Vec.size. simpl. rewrite length_app. simpl. lia. }
      destruct (IH p1 []) as (p' & Hps & Hsz & Hf' & Hle & Hcap); [done| |].
      { eapply representable_le; [|exact Hrep]. rewrite Hsz1. simpl. lia. }
      exists p'. simpl. rewrite (push_grow _ _ _ E). simpl.
      rewrite cast_index_representable
        by (eapply representable_le; [|exact Hrep]; simpl; lia).
      fold p1. rewrite Hps. rewrite take_nil, drop_nil in *.
      simpl in *. rewrite Hsz1, Nat.sub_0_r in *.
      split; [done|]. split; [lia|]. split; [done|].
      assert (capacity p ≤ capacity p1) as Hle1.
      { unfold capacity, Vec.capacity. simpl. case_decide; [done|].
        pose proof (grow_gt (Vec.size (pool p))). lia. }
      split; [lia|]. intros Hroom. rewrite Hcap by lia.
      unfold capacity, Vec.capacity in *. simpl. rewrite decide_True; [done | lia].
    + destruct (push_effect p v h _ Hf ltac:(done))
        as (p1 & Hp & _ & _ & Hf1 & _ & Hsz1 & Hcap1).
      simpl in Hf1, Hsz1. unfold fresh in Hp. simpl in Hp.
      destruct (IH p1 lf Hf1) as (p' & Hps & Hsz & Hf' & Hle & Hcap).
      { by rewrite Hsz1. }
      exists p'. simpl. rewrite Hp. simpl. rewrite Hps. rewrite Hsz1 in *.
      rewrite Hcap1 in * by done.
      split; [done|]. split; [done|]. split; [done|]. split; [done|].
      intros Hroom. apply Hcap. lia.
Qed.

(** X3 (the heads a run of pushes returns). In a pool whose free list is
    the chain [lf], [k] calls of [push], with any values and heads, return
    the first [k] nodes of [lf] and then the indices that follow the
    storage, one by one, provided that the length the storage reaches is a
    value of the index type; the storage grows by the number of pushes
    beyond [lf], and [capacity()] stays as long as these fit into it. *)
Theorem pushes_recycle_then_grow (vhs : list (T * nat)) p lf :
  chain p (free_nodes p) lf →
  representable (Vec.size (pool p) + (length vhs - length lf)) →
  ∃ p', pushes p vhs =
          Returns (take (length vhs) lf ++
                   seq (S (Vec.size (pool p))) (length vhs - length lf), p') ∧
    Vec.size (pool p') = Vec.size (pool p) + (length vhs - length lf) ∧
    chain p' (free_nodes p') (drop (length vhs) lf) ∧
    capacity p ≤ capacity p' ∧
    (Vec.size (pool p) + length vhs ≤ capacity p + length lf →
     capacity p' = capacity p).
Proof. apply pushes_heads. Qed.

(** X15 (reserve makes room). When [reserve(m)] returns, calls of [push]
    that fit, together with the nodes of the free list [lf], into [m] nodes
    and leave a storage whose length is a value of the index type return
    the heads they would have returned without the [reserve] and do not
    reallocate: [capacity()] stays what [reserve] made it, at least [m]
    and at least what it was. *)
Theorem reserve_then_pushes (m : nat) (vhs : list (T * nat)) p p1 lf :
  exec p (call_reserve m) = Some (Returns p1) →
  chain p (free_nodes p) lf →
  Vec.size (pool p) + length vhs ≤ m + length lf →
  representable (Vec.size (pool p) + (length vhs - length lf)) →
  ∃ p', pushes p1 vhs =
          Returns (take (length vhs) lf ++
                   seq (S (Vec.size (pool p))) (length vhs - length lf), p') ∧
    capacity p' = capacity p1 ∧
    m ≤ capacity p' ∧ capacity p ≤ capacity p' ∧
    Vec.size (pool p') = Vec.size (pool p) + (length vhs - length lf).
Proof.
  simpl. intros [= <-] Hf Hroom Hrep.
  assert (chain (reserve p m) (free_nodes (reserve p m)) lf) as Hf'.
  { apply (chain_frame p); [intros; reflexivity | exact Hf]. }
  destruct (pushes_heads vhs (reserve p m) lf Hf' Hrep)
    as (p' & Hps & Hsz & _ & _ & Hcap).
  assert (m ≤ capacity (reserve p m) ∧ capacity p ≤ capacity (reserve p m)) as [Hm Hp].
  { unfold capacity, reserve, Vec.capacity, Vec.reserve. simpl. case_decide; lia. }
  change (Vec.size (pool (reserve p m))) with (Vec.size (pool p)) in *.
  exists p'. split; [exact Hps|]. rewrite Hcap by lia. done.
Qed.

(** *** [push], then [pop] *)

(** X6 (push, then pop). Pushing in front of a stack that shares no node
    with the free list and popping the head that comes back returns the
    former head and leaves the stack with the nodes and the values it had;
    the node used in between is the head of the free list afterwards. When
    no node is free, the length of the storage plus one has to be a value
    of the index type. *)
Theorem push_then_pop p v h l lf :
  chain p h l → chain p (free_nodes p) lf → (∀ x, x ∈ l → x ∉ lf) →
  (lf = [] → representable (S (Vec.size (pool p)))) →
  ∃ x p' p'', push p v h = Returns (x, p') ∧ pop p' x = Returns (h, p'') ∧
    chain p'' h l ∧ contents p'' l = contents p l ∧
    chain p'' (free_nodes p'') (x :: tail lf) ∧
    capacity p'' = capacity p'.
Proof.
  intros Hl Hf Hdis Hrep.
  destruct (push_chain p v h l lf Hl Hf Hdis Hrep)
    as (p' & Hp & _ & Hl' & Hc' & Hf' & Hdis').
  set (x := fresh p lf) in *.
  pose proof (chain_NoDup _ _ _ Hl') as [Hxl _]%NoDup_cons.
  apply chain_cons in Hl' as [_ (n & E & Hl')].
  assert (n = Node v h) as ->.
  { unfold contents in Hc'. simpl in Hc'. rewrite E in Hc'. simpl in Hc'.
    destruct (push_effect p v h lf Hf Hrep) as (q & Hq & Hx & _).
    rewrite Hp in Hq. injection Hq as <-. fold x in Hx. congruence. }
  simpl in Hl'.
  destruct (pop_effect p' x _ E) as (p'' & Hpop & Hfree & Hx'' & Hfr & _ & Hcap).
  exists x, p', p''. split; [done|]. split; [done|].
  assert (∀ y, y ∈ l → slot p'' y = slot p' y) as Hfr'.
  { intros y Hy. apply Hfr. by intros ->. }
  split; [by eapply chain_frame|]. split; [|split; [|done]].
  - rewrite (contents_frame p' p'') by done.
    unfold contents in Hc'. simpl in Hc'. rewrite E in Hc'. simpl in Hc'.
    by injection Hc'.
  - rewrite Hfree. apply chain_cons. split; [done|].
    eexists. split; [exact Hx''|]. simpl.
    eapply chain_frame; [|exact Hf']. intros y Hy. apply Hfr.
    intros ->. eapply Hdis'; [left | done].
Qed.

(** *** [free_stack] and the iterator, round by round *)

Lemma free_stack_short p h l (fuel : nat) :
  chain p h l → fuel < length l → free_stack fuel p h = None.
Proof.
  revert p h fuel. induction l as [|x l IH]; intros p h fuel Hc Hfuel;
    simpl in Hfuel; [lia|].
  pose proof (chain_NoDup _ _ _ Hc) as [Hxl _]%NoDup_cons.
  apply chain_cons in Hc as [-> (n & E & Hc)].
  assert (x ≠ end_) as Hx by (intros ->; discriminate).
  destruct fuel as [|fuel]; simpl; rewrite bool_decide_eq_false_2 by done; [done|].
  simpl. destruct (pop_effect p x n E) as (p1 & -> & _ & _ & Hfr & _).
  apply IH; [|lia].
  eapply chain_frame; [|exact Hc]. intros y Hy. apply Hfr. by intros ->.
Qed.

Lemma pop_n_values k p h y p' z :
  pop_n k p h = Returns (y, p') →
  node_value <$> slot p' z = node_value <$> slot p z.
Proof.
  revert p h. induction k as [|k IH]; intros p h; simpl.
  - by intros [= _ <-].
  - destruct (pop p h) as [[h1 p1]| |] eqn:Hpop; simpl; [|done..].
    intros Hk. rewrite (IH _ _ Hk). by eapply pop_values.
Qed.

(** X7 (what free_stack leaves). On a stack that is a chain [l] sharing no
    node with the free list [lf], [free_stack] runs [length l] rounds (with
    less fuel it is not done) and returns the sentinel; the free list is
    then [l] reversed followed by [lf], every node keeps its value, the
    nodes outside [l] are untouched, and the length and the capacity of the
    storage stay. *)
Theorem free_stack_recycles p h l lf (fuel : nat) :
  chain p h l → chain p (free_nodes p) lf → (∀ x, x ∈ l → x ∉ lf) →
  ∃ p',
    free_stack fuel p h =
      (if decide (length l ≤ fuel) then Some (Returns (end_, p')) else None) ∧
    chain p' (free_nodes p') (reverse l ++ lf) ∧
    (∀ y, y ∉ l → slot p' y = slot p y) ∧
    (∀ y, value p' y = value p y) ∧
    Vec.size (pool p') = Vec.size (pool p) ∧
    capacity p' = capacity p.
Proof.
  intros Hc Hf Hdis.
  destruct (free_stack_chain p h l Hc) as (p' & Hfs & Hpn & Hfr & Hsz & Hcap & Hfl).
  exists p'. split; [|split; [|split; [|split; [|split]]]]; try done.
  - case_decide; [by apply Hfs|]. eapply free_stack_short; [done | lia].
  - by apply Hfl.
  - intros y. unfold value. rewrite !node_slot.
    pose proof (pop_n_values _ _ _ _ _ y Hpn) as Hv.
    destruct (slot p' y), (slot p y); simpl in *; congruence.
Qed.

(** X8 (an iterator walks a chain). From the head of a chain [l] the
    iterator yields the values of the nodes of [l], in order, and equals the
    end iterator after exactly [length l] increments: with less fuel the
    loop is not done. *)
Theorem traverse_exact p h h' l (fuel : nat) :
  chain p h l →
  traverse fuel (begin_ p h) (end_of p h') =
    if decide (length l ≤ fuel) then Some (Returns (contents p l)) else None.
Proof.
  revert h fuel. induction l as [|x l IH]; intros h fuel.
  - rewrite chain_nil. intros ->. rewrite decide_True by (simpl; lia).
    destruct fuel; reflexivity.
  - rewrite chain_cons. intros [-> (n & E & Hc)].
    assert (x ≠ 0) as Hx by (intros ->; discriminate).
    destruct (decide (length (x :: l) ≤ fuel)) as [Hd|Hd]; simpl in Hd;
      (destruct fuel as [|fuel]; [try lia|]); simpl;
      unfold operator_neq; simpl; unfold end_;
      rewrite bool_decide_eq_false_2 by done; simpl; try done;
      unfold operator_deref, operator_incr, value, next; simpl;
      rewrite node_slot, E; simpl;
      change (Iterator p (node_next n)) with (begin_ p (node_next n));
      change (Iterator p 0) with (end_of p h');
      rewrite (IH _ fuel Hc).
    + rewrite decide_True by lia. reflexivity.
    + rewrite decide_False by lia. reflexivity.
Qed.

(** *** Clients within the contract *)

(** X9 (no undefined behaviour within the contract). After any run of
    calls from a default or pre-sized pool, each on the current head of a
    stack, that leaves a storage whose length is a value of the index type,
    the next [push], [pop] or [free_stack] of the client returns: [push] on
    any of its stacks, [pop] on a stack whose head is not the sentinel, and
    [free_stack] on any of its stacks, within [pool.size()] rounds. These
    calls read and write inside the storage only. *)
Theorem legal_calls_return (m : nat) (os : list (op T)) (c : client T) :
  run (Client (sized_pool m) []) os = Some c →
  representable (Vec.size (pool (the_pool c))) →
  (∀ i v, i < length (stacks c) → ∃ c', step c (Push i v) = Some c') ∧
  (∀ i h, stacks c !! i = Some h → h ≠ end_ → ∃ c', step c (Pop i) = Some c') ∧
  (∀ i fuel, i < length (stacks c) → Vec.size (pool (the_pool c)) ≤ fuel →
             ∃ c', step c (FreeStack i fuel) = Some c').
Proof.
  intros Hrun Hrep.
  assert (well_formed c) as Hwf.
  { eapply run_well_formed; [|exact Hrun | exact Hrep].
    eexists _, _. apply sized_pool_well_formed. }
  assert (∀ o, legal c o → ∃ c', step c o = Some c') as Hstep.
  { intros o Hlegal. by destruct (step_progress c o Hwf Hlegal) as [c' ->]; eauto. }
  split; [|split].
  - intros i v Hi. by apply Hstep.
  - intros i h Hh Hne. apply Hstep. simpl. eauto.
  - intros i fuel Hi Hfuel. by apply Hstep.
Qed.

(** *** The stacks of a client are lists *)

Lemma alter_lookup {A} (f : A → A) (l : list A) i a :
  l !! i = Some a → alter f i l = <[i:=f a]> l.
Proof.
  revert i. induction l as [|b l IH]; intros [|i]; simpl; try done.
  - by intros [= ->].
  - intros Hi. f_equal. by apply IH.
Qed.

Lemma lists_rest (c : client T) lf ls i li y :
  lists c lf ls → ls !! i = Some li → y ∈ concat (delete i ls) →
  (y ∉ lf ++ li) ∧ 1 ≤ y ≤ Vec.size (pool (the_pool c)).
Proof.
  intros (_ & _ & Hnd & Hcov) Hli Hy.
  assert (lf ++ concat ls ≡ₚ (lf ++ li) ++ concat (delete i ls)) as Hall.
  { by rewrite (concat_lookup _ _ _ Hli), app_assoc. }
  rewrite Hall in Hnd. apply NoDup_app in Hnd as (_ & Hdis & _).
  split.
  - intros Hin. by eapply Hdis.
  - apply Hcov. rewrite Hall. apply elem_of_app. by right.
Qed.

Lemma contents_update p p' (ls : list (list nat)) (vs : list (list T)) i li l'
    (w' : list T) :
  Forall2 (λ l w, contents p l = w) ls vs → ls !! i = Some li →
  (∀ y, y ∈ concat (delete i ls) → slot p' y = slot p y) →
  contents p' l' = w' →
  Forall2 (λ l w, contents p' l = w) (<[i:=l']> ls) (<[i:=w']> vs).
Proof.
  intros Hvs Hli Hfr Hl'. apply Forall2_same_length_lookup_2.
  { rewrite !length_insert. by eapply Forall2_length. }
  intros j a b [(-> & <- & _)|(Hij & Ha)]%list_lookup_insert_Some
               [(Hij' & <- & _)|(Hij' & Hb)]%list_lookup_insert_Some; try done.
  rewrite <- (Forall2_lookup_lr _ _ _ _ _ _ Hvs Ha Hb).
  apply contents_frame. intros y Hy. apply Hfr.
  by eapply elem_of_concat_delete.
Qed.

Lemma push_represents (c : client T) vs i h v x p' :
  represents c vs → stacks c !! i = Some h →
  push (the_pool c) v h = Returns (x, p') →
  representable (Vec.size (pool p')) →
  represents (Client p' (<[i:=x]> (stacks c))) (alter (cons v) i vs).
Proof.
  intros (lf & ls & Hlists & Hvs) Hh Hpush Hrep. pose proof Hlists as (Hf & _).
  destruct (lists_stack _ _ _ _ _ Hlists Hh) as (li & Hli & Hc & Hnd & Hrange).
  destruct (Forall2_lookup_l _ _ _ _ _ Hvs Hli) as (vi & Hvi & Hci).
  destruct (push_effect (the_pool c) v h lf Hf)
    as (q & Hp & Hx & Hfr & Hf' & _ & Hsz & _).
  { intros ->. apply chain_nil in Hf.
    by rewrite <- (push_grow_size _ _ _ _ _ Hf Hpush). }
  rewrite Hpush in Hp. injection Hp as -> <-.
  set (x := fresh (the_pool c) lf) in *.
  assert (x ∉ li) as Hxli.
  { intros Hin. destruct lf as [|f lf]; unfold x, fresh in *; simpl in *.
    - specialize (Hrange _ Hin). lia.
    - apply NoDup_cons in Hnd as [Hnd _]. apply Hnd, elem_of_app. by right. }
  assert (∀ y, y ∉ lf ++ li → 1 ≤ y ≤ Vec.size (pool (the_pool c)) → y ≠ x) as Hyx.
  { intros y Hy Hle ->.
    destruct lf as [|f lf]; unfold x, fresh in *; simpl in *; [lia|].
    apply Hy. left. }
  assert (∀ y, y ∈ li → slot p' y = slot (the_pool c) y) as Hfrl.
  { intros y Hy. apply Hfr. by intros ->. }
  assert (chain p' x (x :: li)) as Hc'.
  { apply chain_cons. split; [done|]. eexists. split; [exact Hx|]. simpl.
    by eapply chain_frame. }
  exists (tail lf), (<[i:=x :: li]> ls). split.
  - eapply lists_update; [exact Hlists | exact Hh | exact Hli | exact Hf' | exact Hc'
                          | | | |].
    + intros y Hy Hle. apply Hfr. by apply Hyx.
    + destruct lf as [|f lf]; simpl.
      * apply NoDup_cons. split; [done|]. by eapply chain_NoDup.
      * unfold x, fresh in *. simpl in *. by rewrite <- Permutation_middle.
    + intros y. destruct lf as [|f lf]; unfold x, fresh in *; simpl in *.
      * rewrite Hsz, elem_of_cons. split; [intros [->|?]; [right; lia | by left]|].
        intros [?|?]; [by right | left; lia].
      * rewrite Hsz, <- Permutation_middle. split; [by left|].
        intros [?|?]; [done | lia].
    + destruct lf; lia.
  - rewrite (alter_lookup _ _ _ _ Hvi). simpl.
    eapply contents_update; [exact Hvs | exact Hli | |].
    + intros y Hy. destruct (lists_rest _ _ _ _ _ _ Hlists Hli Hy). apply Hfr. eauto.
    + unfold contents at 1. simpl. rewrite Hx. simpl. f_equal.
      rewrite <- Hci. by apply contents_frame.
Qed.

Lemma pop_represents (c : client T) vs i h :
  represents c vs → stacks c !! i = Some h → h ≠ end_ →
  ∃ x p', pop (the_pool c) h = Returns (x, p') ∧
    represents (Client p' (<[i:=x]> (stacks c))) (alter tail i vs).
Proof.
  intros (lf & ls & Hlists & Hvs) Hh Hne. pose proof Hlists as (Hf & _).
  destruct (lists_stack _ _ _ _ _ Hlists Hh) as (li & Hli & Hc & Hnd & _).
  destruct (Forall2_lookup_l _ _ _ _ _ Hvs Hli) as (vi & Hvi & Hci).
  destruct (chain_head _ _ _ Hc Hne) as (li0 & ->).
  apply chain_cons in Hc as [_ (n & E & Hc)].
  destruct (pop_effect _ _ _ E) as (p' & Hp & Hfree & Hx & Hfr & Hsz & _).
  rewrite <- Permutation_middle in Hnd. apply NoDup_cons in Hnd as [Hnin Hnd].
  rewrite elem_of_app in Hnin.
  assert (∀ y, y ∈ li0 → slot p' y = slot (the_pool c) y) as Hfrl.
  { intros y Hy. apply Hfr. intros ->. tauto. }
  exists (node_next n), p'. split; [done|].
  exists (h :: lf), (<[i:=li0]> ls). split.
  - eapply lists_exchange; [exact Hlists | exact Hh | exact Hli | | | | | exact Hsz].
    + rewrite Hfree. apply chain_cons. split; [done|]. eexists. split; [exact Hx|].
      simpl. eapply chain_frame; [|exact Hf]. intros y Hy. apply Hfr.
      intros ->. tauto.
    + by eapply chain_frame.
    + intros y Hy. apply Hfr. intros ->. apply Hy, elem_of_app. right. left.
    + simpl. by rewrite <- Permutation_middle.
  - rewrite (alter_lookup _ _ _ _ Hvi).
    eapply contents_update; [exact Hvs | exact Hli | |].
    + intros y Hy. destruct (lists_rest _ _ _ _ _ _ Hlists Hli Hy) as [Hy' _].
      apply Hfr. intros ->. apply Hy', elem_of_app. right. left.
    + rewrite <- Hci. unfold contents at 2. simpl. rewrite E. simpl.
      by apply contents_frame.
Qed.

Lemma free_stack_represents (c : client T) vs i h (fuel : nat) r :
  represents c vs → stacks c !! i = Some h →
  free_stack fuel (the_pool c) h = Some r →
  ∃ p', r = Returns (end_, p') ∧
    represents (Client p' (<[i:=end_]> (stacks c))) (alter (λ _, []) i vs).
Proof.
  intros (lf & ls & Hlists & Hvs) Hh Hr. pose proof Hlists as (Hf & _).
  destruct (lists_stack _ _ _ _ _ Hlists Hh) as (li & Hli & Hc & Hnd & _).
  destruct (Forall2_lookup_l _ _ _ _ _ Hvs Hli) as (vi & Hvi & Hci).
  destruct (free_stack_chain _ _ _ Hc) as (p' & Hfs & _ & Hfr & Hsz & _ & Hfl).
  apply NoDup_app in Hnd as (_ & Hdis & _).
  exists p'. split.
  { pose proof (free_stack_fuel _ (fuel `max` length li) _ _ _ Hr) as Hr'.
    rewrite Hfs in Hr' by lia. symmetry. apply (inj Some), Hr'. lia. }
  exists (reverse li ++ lf), (<[i:=[]]> ls). split.
  - eapply lists_exchange; [exact Hlists | exact Hh | exact Hli | | | | | exact Hsz].
    + apply Hfl; [done|]. intros x Hx Hx'. by eapply Hdis.
    + done.
    + intros y Hy. apply Hfr. intros Hin. apply Hy, elem_of_app. by right.
    + rewrite app_nil_r, reverse_Permutation. apply Permutation_app_comm.
  - rewrite (alter_lookup _ _ _ _ Hvi).
    eapply contents_update; [exact Hvs | exact Hli | | done].
    intros y Hy. destruct (lists_rest _ _ _ _ _ _ Hlists Hli Hy) as [Hy' _].
    apply Hfr. intros Hin. apply Hy', elem_of_app. by right.
Qed.

Lemma step_represents (c : client T) vs o c' :
  represents c vs → step c o = Some c' →
  representable (Vec.size (pool (the_pool c'))) →
  represents c' (model_step vs o).
Proof.
  intros Hrep. destruct o as [|i v|i|i fuel|m]; simpl.
  - intros [= <-] _. destruct Hrep as (lf & ls & (Hf & Hs & Hnd & Hcov) & Hvs).
    exists lf, (ls ++ [[]]). split; [split; [done|]; split; [|split]|].
    + simpl. apply Forall2_app; [done|]. by constructor.
    + rewrite concat_app. simpl. by rewrite app_nil_r.
    + intros y. rewrite concat_app. simpl. rewrite app_nil_r. apply Hcov.
    + apply Forall2_app; [done|]. by constructor.
  - destruct (stacks c !! i) as [h|] eqn:Hh; simpl; [|done].
    destruct (push (the_pool c) v h) as [[x p']| |] eqn:Hpush; simpl; [|done..].
    intros [= <-] Hsize. by eapply push_represents.
  - destruct (stacks c !! i) as [h|] eqn:Hh; simpl; [|done].
    unfold empty. case_bool_decide as Hne; [done|].
    destruct (pop_represents c vs i h Hrep Hh Hne) as (x & p' & -> & Hrep').
    simpl. by intros [= <-] _.
  - destruct (stacks c !! i) as [h|] eqn:Hh; simpl; [|done].
    destruct (free_stack fuel (the_pool c) h) as [r|] eqn:Hr; simpl; [|done].
    destruct (free_stack_represents c vs i h fuel r Hrep Hh Hr) as (p' & -> & Hrep').
    simpl. by intros [= <-] _.
  - intros [= <-] _. destruct Hrep as (lf & ls & (Hf & Hs & Hnd & Hcov) & Hvs).
    exists lf, ls. split; [split; [|split; [|done]]|].
    + apply (chain_frame (the_pool c)); [intros; reflexivity | exact Hf].
    + eapply Forall2_impl; [exact Hs|]. intros h l Hc.
      apply (chain_frame (the_pool c)); [intros; reflexivity | exact Hc].
    + eapply Forall2_impl; [exact Hvs|]. intros l w <-.
      apply contents_frame. intros; reflexivity.
Qed.

Lemma run_represents (os : list (op T)) (c0 c : client T) vs :
  represents c0 vs → run c0 os = Some c →
  representable (Vec.size (pool (the_pool c))) →
  represents c (model_run vs os).
Proof.
  revert c0 vs. induction os as [|o os IH]; intros c0 vs Hrep; simpl.
  - by intros [= <-].
  - destruct (step c0 o) as [c1|] eqn:Hstep; simpl; [|done].
    intros Hrun Hsize. apply (IH c1); [|done..].
    eapply step_represents; [done..|].
    eapply representable_le; [by eapply run_size | done].
Qed.

(** X10 (the stacks behave as independent lists). After any run of calls
    from a default or pre-sized pool, each on the current head of a stack,
    that leaves a storage whose length is a value of the index type, the
    client has as many stacks as the table of lists on which [new_stack]
    adds an empty list, [push] on stack [i] conses onto the [i]-th list,
    [pop] takes its tail, [free_stack] empties it and [reserve] does
    nothing; and the iterator over the [i]-th stack yields the [i]-th list
    of that table and then equals the end iterator. *)
Theorem run_refines_lists (m : nat) (os : list (op T)) (c : client T) :
  run (Client (sized_pool m) []) os = Some c →
  representable (Vec.size (pool (the_pool c))) →
  length (stacks c) = length (model_run [] os) ∧
  ∀ i h, stacks c !! i = Some h →
    ∃ vi, model_run [] os !! i = Some vi ∧
      traverse (length vi) (begin_ (the_pool c) h) (end_of (the_pool c) h)
      = Some (Returns vi).
Proof.
  intros Hrun Hsize.
  assert (represents (Client (sized_pool (T:=T) m) []) []) as Hinit.
  { exists [], []. split; [apply sized_pool_well_formed | constructor]. }
  destruct (run_represents _ _ _ _ Hinit Hrun Hsize) as (lf & ls & (_ & Hs & _) & Hvs).
  split.
  - rewrite (Forall2_length _ _ _ Hs). by eapply Forall2_length.
  - intros i h Hh.
    destruct (Forall2_lookup_l _ _ _ _ _ Hs Hh) as (li & Hli & Hc).
    destruct (Forall2_lookup_l _ _ _ _ _ Hvs Hli) as (vi & Hvi & Hci).
    exists vi. split; [done|].
    rewrite <- Hci, (contents_length _ _ _ Hc). by apply traverse_chain.
Qed.
End further.

(** ** The claims on concrete pools *)

Lemma lifo_law_witness :
  chain recycled_pool (free_nodes recycled_pool) [3] ∧
  representable (Vec.size (pool recycled_pool) + (length [10; 20; 30] - length [3])) ∧
  ∃ h p', push_all recycled_pool [10; 20; 30] (new_stack recycled_pool) = Returns (h, p') ∧
    traverse 3 (begin_ p' h) (end_of p' h) = Some (Returns [30; 20; 10]).
Proof.
  split; [vm_compute; auto|]. split; [reflexivity|].
  apply (lifo_law recycled_pool [10; 20; 30] [3]); [vm_compute; auto | reflexivity].
Defined.

(** [full_pool] is a pool the interface builds. *)
Lemma full_pool_reached :
  push_all (Idx:=uint8_t) default_pool (replicate 255 7)
    (new_stack (default_pool (T:=nat)))
  = Returns (255, full_pool).
Proof. vm_compute. reflexivity. Qed.

(** C1, as stated, fails when the index type is narrow: after 256 pushes
    onto the empty stack of a default pool of [stack_pool<int, uint8_t>],
    the head returned is the sentinel and the iterator yields nothing. *)
Lemma lifo_law_fails_uint8 :
  chain (default_pool (T:=nat)) (free_nodes (default_pool (T:=nat))) [] ∧
  ∃ p', push_all (Idx:=uint8_t) default_pool (replicate 256 7)
          (new_stack (default_pool (T:=nat)))
        = Returns (0, p') ∧
    traverse 256 (begin_ p' 0) (end_of p' 0) = Some (Returns []) ∧
    reverse (replicate 256 7) ≠ [].
Proof.
  split; [reflexivity|]. eexists. split; [vm_compute; reflexivity|].
  split; [reflexivity|]. vm_compute. discriminate.
Defined.

Lemma pop_push_witness :
  free_nodes sample_pool ≤ Vec.size (pool sample_pool) ∧
  (free_nodes sample_pool = 0 → representable (S (Vec.size (pool sample_pool)))) ∧
  ∃ x p' p'', push sample_pool 7 3 = Returns (x, p') ∧ pop p' x = Returns (3, p'').
Proof.
  assert (free_nodes sample_pool = 0 → representable (S (Vec.size (pool sample_pool))))
    as Hrep by (intros _; reflexivity).
  split; [vm_compute; lia|]. split; [exact Hrep|].
  apply (pop_push sample_pool 7 3); [vm_compute; lia | exact Hrep].
Defined.

(** C2, as stated, fails when the index type is narrow: in the pool of
    [stack_pool<int, uint8_t>] that holds 255 nodes, [push] onto the stack
    headed by [255] returns the sentinel, and [pop] of it is undefined. *)
Lemma pop_push_fails_uint8 :
  free_nodes full_pool ≤ Vec.size (pool full_pool) ∧
  ∃ p', push (Idx:=uint8_t) full_pool 9 255 = Returns (0, p') ∧
    pop p' 0 = Undefined.
Proof.
  split; [vm_compute; lia|]. eexists. split; [vm_compute; reflexivity|]. reflexivity.
Defined.

(** C3, as stated, fails when the index type is narrow: in the same pool
    [push] appends the node of index [256] and returns [0], which is neither
    the new length of the storage nor the index of the node. *)
Lemma push_algorithm_fails_uint8 :
  free_nodes full_pool = 0 ∧
  ∃ p', push (Idx:=uint8_t) full_pool 9 255 = Returns (0, p') ∧
    Vec.size (pool p') = 256 ∧
    slot p' 256 = Some (Node 9 255) ∧
    slot p' 0 = None.
Proof.
  split; [reflexivity|]. eexists. split; [vm_compute; reflexivity|].
  split; [reflexivity|]. split; reflexivity.
Defined.

Lemma reachable_lists_witness :
  ∃ c, run (Client (sized_pool 2) [])
           [NewStack; Push 0 1; Push 0 2; NewStack; Push 1 3; Pop 0; Push 1 4;
            Push 1 5; Reserve 1; FreeStack 1 3; Push 0 6] = Some c ∧
    representable (Vec.size (pool (the_pool c))) ∧
    ∃ lf ls,
      chain (the_pool c) (free_nodes (the_pool c)) lf ∧
      Forall2 (chain (the_pool c)) (stacks c) ls ∧
      NoDup (lf ++ concat ls) ∧
      (∀ x, x ∈ lf ++ concat ls ↔ 1 ≤ x ≤ Vec.size (pool (the_pool c))).
Proof.
  eexists. split; [vm_compute; reflexivity|]. split; [reflexivity|].
  apply (reachable_lists 2
           [NewStack; Push 0 1; Push 0 2; NewStack; Push 1 3; Pop 0; Push 1 4;
            Push 1 5; Reserve 1; FreeStack 1 3; Push 0 6]);
    [vm_compute; reflexivity | reflexivity].
Defined.

(** C4, as stated, fails when the index type is narrow: a client of
    [stack_pool<int, uint8_t>] that pushes once on its first stack and 256
    times on its second holds the head [1] for both, so that node [1] is on
    two stacks. *)
Lemma reachable_lists_fails_uint8 :
  ∃ c, run (Idx:=uint8_t) (Client (sized_pool 0) [])
           ([NewStack; NewStack; Push 0 1] ++ replicate 256 (Push 1 2)) = Some c ∧
    stacks c = [1; 1] ∧
    chain (the_pool c) 1 [1] ∧
    ¬ ∃ lf ls,
        chain (the_pool c) (free_nodes (the_pool c)) lf ∧
        Forall2 (chain (the_pool c)) (stacks c) ls ∧
        NoDup (lf ++ concat ls) ∧
        (∀ x, x ∈ lf ++ concat ls ↔ 1 ≤ x ≤ Vec.size (pool (the_pool c))).
Proof.
  eexists. split; [vm_compute; reflexivity|]. split; [reflexivity|].
  assert (∀ p : stack_pool nat, chain p 1 [1] →
            ¬ ∃ lf ls, chain p (free_nodes p) lf ∧ Forall2 (chain p) [1; 1] ls ∧
                       NoDup (lf ++ concat ls) ∧
                       (∀ x, x ∈ lf ++ concat ls ↔ 1 ≤ x ≤ Vec.size (pool p))) as Hno.
  { intros p H1 (lf & ls & _ & Hs & Hnd & _).
    apply Forall2_cons_inv_l in Hs as (l1 & ls1 & Hl1 & Hs & ->).
    apply Forall2_cons_inv_l in Hs as (l2 & ls2 & Hl2 & Hs & ->).
    apply Forall2_nil_inv_l in Hs as ->.
    rewrite (chain_det _ _ _ _ Hl1 H1), (chain_det _ _ _ _ Hl2 H1) in Hnd.
    simpl in Hnd. apply NoDup_app in Hnd as (_ & _ & Hnd).
    apply NoDup_cons in Hnd as [Hnin _]. apply Hnin. left. }
  split; [vm_compute; auto|]. apply Hno. vm_compute. auto.
Defined.

(** Why the client of [run] uses each head once: a head passed to [push] a
    second time becomes the tail of two stacks, which then share its nodes. *)
Example stale_head_shares_a_node :
  ∃ h1 h2 h3 p,
    ('(h1, p1) ← push (default_pool (T:=nat)) 1 0;
     '(h2, p2) ← push p1 2 h1;
     '(h3, p3) ← push p2 3 h1;
     mret (h1, h2, h3, p3)) = Returns (h1, h2, h3, p) ∧
    chain p h2 [h2; h1] ∧ chain p h3 [h3; h1] ∧ h2 ≠ h3.
Proof.
  do 4 eexists. split; [vm_compute; reflexivity|].
  split; [vm_compute; auto|]. split; [vm_compute; auto | done].
Qed.

Lemma free_stack_pops_witness :
  chain sample_pool 3 [3; 2; 1] ∧ length [3; 2; 1] ≤ 3 ∧
  ∃ p', free_stack 3 sample_pool 3 = Some (Returns (end_, p')) ∧
    pop_n 3 sample_pool 3 = Returns (end_, p') ∧
    (∀ k, k < 3 →
       ∃ x q, pop_n k sample_pool 3 = Returns (x, q) ∧ [3; 2; 1] !! k = Some x ∧ x ≠ end_) ∧
    empty end_ = true.
Proof.
  split; [vm_compute; auto|]. split; [simpl; lia|].
  apply (free_stack_pops sample_pool 3 [3; 2; 1] 3); [vm_compute; auto | simpl; lia].
Defined.


Lemma recycling_witness :
  ∃ p1, pops sample_pool [3; 2] = Returns p1 ∧
    chain p1 (free_nodes p1) [2; 3] ∧
    length [(7, 1); (8, 2)] = length [3; 2] ∧
    length [3; 2] ≤ length [2; 3] ∧
    ∃ p2, pushes p1 [(7, 1); (8, 2)] = Returns (take 2 [2; 3], p2) ∧
      capacity p2 = capacity sample_pool ∧
      capacity p2 = capacity p1 ∧
      Vec.size (pool p2) = Vec.size (pool p1).
Proof.
  eexists. split; [vm_compute; reflexivity|].
  split; [vm_compute; auto|]. split; [reflexivity|]. split; [simpl; lia|].
  apply (recycling sample_pool [3; 2] _ [2; 3] [(7, 1); (8, 2)]);
    [vm_compute; reflexivity | vm_compute; auto | reflexivity | simpl; lia].
Defined.

Lemma capacity_monotone_witness :
  ∃ p', exec_all sample_pool
          [call_reserve 8; call_push 4 3; call_reserve 2; call_pop 4;
           call_free_stack 3 3; call_new_stack; call_push 5 0] = Some (Returns p') ∧
    capacity sample_pool ≤ capacity p'.
Proof.
  eexists. split; [vm_compute; reflexivity|].
  apply (capacity_monotone sample_pool
           [call_reserve 8; call_push 4 3; call_reserve 2; call_pop 4;
            call_free_stack 3 3; call_new_stack; call_push 5 0]).
  vm_compute. reflexivity.
Defined.

Lemma push_reuse_frame_witness :
  slot recycled_pool (free_nodes recycled_pool) = Some (Node 3 0) ∧
  ∃ p', push recycled_pool 9 2 = Returns (free_nodes recycled_pool, p') ∧
    free_nodes p' = node_next (Node 3 0) ∧
    slot p' (free_nodes recycled_pool) = Some (Node 9 2) ∧
    (∀ y, y ≠ free_nodes recycled_pool → slot p' y = slot recycled_pool y) ∧
    Vec.size (pool p') = Vec.size (pool recycled_pool) ∧
    capacity p' = capacity recycled_pool.
Proof.
  split; [reflexivity|].
  apply (push_reuse_frame recycled_pool 9 2 (Node 3 0)). reflexivity.
Defined.

(** ** The further properties on concrete pools *)

Lemma pop_frame_witness :
  slot sample_pool 3 = Some (Node 3 2) ∧
  ∃ p', pop sample_pool 3 = Returns (2, p') ∧
    free_nodes p' = 3 ∧
    next p' 3 = Returns (free_nodes sample_pool) ∧
    value p' 3 = Returns 3 ∧
    (∀ y, y ≠ 3 → slot p' y = slot sample_pool y) ∧
    Vec.size (pool p') = Vec.size (pool sample_pool) ∧
    capacity p' = capacity sample_pool ∧
    (∀ lf, chain sample_pool (free_nodes sample_pool) lf → 3 ∉ lf →
           chain p' (free_nodes p') (3 :: lf)).
Proof.
  split; [reflexivity|]. apply (pop_frame sample_pool 3 (Node 3 2)). reflexivity.
Defined.

Lemma push_reads_back_witness :
  free_nodes sample_pool ≤ Vec.size (pool sample_pool) ∧
  (free_nodes sample_pool = 0 → representable (S (Vec.size (pool sample_pool)))) ∧
  ∃ x p', push sample_pool 7 3 = Returns (x, p') ∧
    value p' x = Returns 7 ∧ next p' x = Returns 3 ∧
    empty x = false ∧ 1 ≤ x ≤ Vec.size (pool p') ∧
    Vec.size (pool sample_pool) ≤ Vec.size (pool p').
Proof.
  assert (free_nodes sample_pool = 0 → representable (S (Vec.size (pool sample_pool))))
    as Hrep by (intros _; reflexivity).
  split; [vm_compute; lia|]. split; [exact Hrep|].
  apply (push_reads_back sample_pool 7 3); [vm_compute; lia | exact Hrep].
Defined.

Lemma set_value_frame_witness :
  slot sample_pool 2 = Some (Node 2 1) ∧
  ∃ p', set_value sample_pool 2 9 = Returns p' ∧
    value p' 2 = Returns 9 ∧ next p' 2 = Returns 1 ∧
    (∀ y, y ≠ 2 → slot p' y = slot sample_pool y) ∧
    free_nodes p' = free_nodes sample_pool ∧
    (∀ h l, chain sample_pool h l → chain p' h l) ∧
    Vec.size (pool p') = Vec.size (pool sample_pool) ∧
    capacity p' = capacity sample_pool.
Proof.
  split; [reflexivity|].
  apply (set_value_frame sample_pool 2 9 (Node 2 1)). reflexivity.
Defined.

Lemma pop_then_push_witness :
  slot sample_pool 3 = Some (Node 3 2) ∧
  ∃ p1, pop sample_pool 3 = Returns (2, p1) ∧
    (∀ v h, ∃ p2, push p1 v h = Returns (3, p2) ∧
       free_nodes p2 = free_nodes sample_pool ∧
       slot p2 3 = Some (Node v h) ∧
       (∀ y, y ≠ 3 → slot p2 y = slot sample_pool y) ∧
       capacity p2 = capacity sample_pool) ∧
    push p1 3 2 = Returns (3, sample_pool).
Proof.
  split; [reflexivity|].
  apply (pop_then_push sample_pool 3 (Node 3 2)). reflexivity.
Defined.

Lemma pop_twice_witness :
  slot sample_pool 3 = Some (Node 3 2) ∧
  ∃ p2, pops sample_pool [3; 3] = Returns p2 ∧
    free_nodes p2 = 3 ∧ next p2 3 = Returns 3 ∧
    (∀ l, ¬ chain p2 (free_nodes p2) l) ∧
    (∀ v1 h1 v2 h2, ∃ p4,
       pushes p2 [(v1, h1); (v2, h2)] = Returns ([3; 3], p4)).
Proof.
  split; [reflexivity|].
  apply (pop_twice sample_pool 3 (Node 3 2)). reflexivity.
Defined.

Lemma storage_never_shrinks_witness :
  ∃ p', exec_all sample_pool
          [call_pop 3; call_push 4 2; call_push 5 3; call_free_stack 4 4;
           call_reserve 1] = Some (Returns p') ∧
    Vec.size (pool sample_pool) ≤ Vec.size (pool p') ∧
    ∀ x, is_Some (slot sample_pool x) → is_Some (slot p' x).
Proof.
  eexists. split; [vm_compute; reflexivity|].
  apply (storage_never_shrinks sample_pool
           [call_pop 3; call_push 4 2; call_push 5 3; call_free_stack 4 4;
            call_reserve 1]).
  vm_compute. reflexivity.
Defined.

Lemma pushes_recycle_then_grow_witness :
  chain recycled_pool (free_nodes recycled_pool) [3] ∧
  representable (Vec.size (pool recycled_pool)
                 + (length [(7, 2); (8, 3); (9, 0)] - length [3])) ∧
  ∃ p', pushes recycled_pool [(7, 2); (8, 3); (9, 0)] =
          Returns (take 3 [3] ++ seq (S (Vec.size (pool recycled_pool))) (3 - 1), p') ∧
    Vec.size (pool p') = Vec.size (pool recycled_pool) + (3 - 1) ∧
    chain p' (free_nodes p') (drop 3 [3]) ∧
    capacity recycled_pool ≤ capacity p' ∧
    (Vec.size (pool recycled_pool) + 3 ≤ capacity recycled_pool + 1 →
     capacity p' = capacity recycled_pool).
Proof.
  split; [vm_compute; auto|]. split; [reflexivity|].
  apply (pushes_recycle_then_grow [(7, 2); (8, 3); (9, 0)] recycled_pool [3]);
    [vm_compute; auto | reflexivity].
Defined.

Lemma reserve_then_pushes_witness :
  exec recycled_pool (call_reserve 5) = Some (Returns (reserve recycled_pool 5)) ∧
  chain recycled_pool (free_nodes recycled_pool) [3] ∧
  Vec.size (pool recycled_pool) + length [(7, 2); (8, 3); (9, 0)] ≤ 5 + length [3] ∧
  representable (Vec.size (pool recycled_pool)
                 + (length [(7, 2); (8, 3); (9, 0)] - length [3])) ∧
  ∃ p', pushes (reserve recycled_pool 5) [(7, 2); (8, 3); (9, 0)] =
          Returns (take 3 [3] ++ seq (S (Vec.size (pool recycled_pool))) (3 - 1), p') ∧
    capacity p' = capacity (reserve recycled_pool 5) ∧
    5 ≤ capacity p' ∧ capacity recycled_pool ≤ capacity p' ∧
    Vec.size (pool p') = Vec.size (pool recycled_pool) + (3 - 1).
Proof.
  split; [reflexivity|]. split; [vm_compute; auto|]. split; [vm_compute; lia|].
  split; [reflexivity|].
  apply (reserve_then_pushes 5 [(7, 2); (8, 3); (9, 0)] recycled_pool
           (reserve recycled_pool 5) [3]);
    [reflexivity | vm_compute; auto | vm_compute; lia | reflexivity].
Defined.

Lemma push_then_pop_witness :
  chain sample_pool 3 [3; 2; 1] ∧
  chain sample_pool (free_nodes sample_pool) [] ∧
  (∀ x, x ∈ [3; 2; 1] → x ∉ []) ∧
  (@nil nat = [] → representable (S (Vec.size (pool sample_pool)))) ∧
  ∃ x p' p'', push sample_pool 7 3 = Returns (x, p') ∧ pop p' x = Returns (3, p'') ∧
    chain p'' 3 [3; 2; 1] ∧ contents p'' [3; 2; 1] = contents sample_pool [3; 2; 1] ∧
    chain p'' (free_nodes p'') (x :: tail []) ∧
    capacity p'' = capacity p'.
Proof.
  assert (∀ x : nat, x ∈ [3; 2; 1] → x ∉ []) as Hdis.
  { intros x _. apply not_elem_of_nil. }
  assert (@nil nat = [] → representable (S (Vec.size (pool sample_pool))))
    as Hrep by (intros _; reflexivity).
  split; [vm_compute; auto|]. split; [vm_compute; auto|]. split; [exact Hdis|].
  split; [exact Hrep|].
  apply (push_then_pop sample_pool 7 3 [3; 2; 1] []);
    [vm_compute; auto | vm_compute; auto | exact Hdis | exact Hrep].
Defined.

Lemma free_stack_recycles_witness :
  chain recycled_pool 2 [2; 1] ∧
  chain recycled_pool (free_nodes recycled_pool) [3] ∧
  (∀ x, x ∈ [2; 1] → x ∉ [3]) ∧
  ∃ p',
    free_stack 2 recycled_pool 2 =
      (if decide (length [2; 1] ≤ 2) then Some (Returns (end_, p')) else None) ∧
    chain p' (free_nodes p') (reverse [2; 1] ++ [3]) ∧
    (∀ y, y ∉ [2; 1] → slot p' y = slot recycled_pool y) ∧
    (∀ y, value p' y = value recycled_pool y) ∧
    Vec.size (pool p') = Vec.size (pool recycled_pool) ∧
    capacity p' = capacity recycled_pool.
Proof.
  assert (∀ x, x ∈ [2; 1] → x ∉ [3]) as Hdis.
  { intros x Hx Hx'. apply list_elem_of_singleton in Hx'. subst x.
    apply elem_of_cons in Hx as [?|Hx]; [done|].
    apply list_elem_of_singleton in Hx. done. }
  split; [vm_compute; auto|]. split; [vm_compute; auto|]. split; [exact Hdis|].
  apply (free_stack_recycles recycled_pool 2 [2; 1] [3] 2);
    [vm_compute; auto | vm_compute; auto | exact Hdis].
Defined.

Lemma traverse_exact_witness :
  chain sample_pool 3 [3; 2; 1] ∧
  traverse 3 (begin_ sample_pool 3) (end_of sample_pool 3) =
    (if decide (length [3; 2; 1] ≤ 3)
     then Some (Returns (contents sample_pool [3; 2; 1])) else None) ∧
  traverse 2 (begin_ sample_pool 3) (end_of sample_pool 3) =
    (if decide (length [3; 2; 1] ≤ 2)
     then Some (Returns (contents sample_pool [3; 2; 1])) else None).
Proof.
  split; [vm_compute; auto|]. split.
  - apply (traverse_exact sample_pool 3 3 [3; 2; 1] 3). vm_compute. auto.
  - apply (traverse_exact sample_pool 3 3 [3; 2; 1] 2). vm_compute. auto.
Defined.

Lemma legal_calls_return_witness :
  ∃ c, run (Client (sized_pool 2) [])
           [NewStack; Push 0 1; Push 0 2; NewStack; Push 1 3; Pop 0; Push 1 4] = Some c ∧
    representable (Vec.size (pool (the_pool c))) ∧
    (∀ i v, i < length (stacks c) → ∃ c', step c (Push i v) = Some c') ∧
    (∀ i h, stacks c !! i = Some h → h ≠ end_ → ∃ c', step c (Pop i) = Some c') ∧
    (∀ i fuel, i < length (stacks c) → Vec.size (pool (the_pool c)) ≤ fuel →
               ∃ c', step c (FreeStack i fuel) = Some c').
Proof.
  eexists. split; [vm_compute; reflexivity|]. split; [reflexivity|].
  apply (legal_calls_return 2
           [NewStack; Push 0 1; Push 0 2; NewStack; Push 1 3; Pop 0; Push 1 4]);
    [vm_compute; reflexivity | reflexivity].
Defined.

Lemma run_refines_lists_witness :
  ∃ c, run (Client (sized_pool 2) [])
           [NewStack; Push 0 1; Push 0 2; NewStack; Push 1 3; Pop 0; Push 1 4;
            Push 0 5; FreeStack 1 3; Push 1 6] = Some c ∧
    representable (Vec.size (pool (the_pool c))) ∧
    length (stacks c) =
      length (model_run []
                [NewStack; Push 0 1; Push 0 2; NewStack; Push 1 3; Pop 0; Push 1 4;
                 Push 0 5; FreeStack 1 3; Push 1 6]) ∧
    ∀ i h, stacks c !! i = Some h →
      ∃ vi, model_run []
              [NewStack; Push 0 1; Push 0 2; NewStack; Push 1 3; Pop 0; Push 1 4;
               Push 0 5; FreeStack 1 3; Push 1 6] !! i = Some vi ∧
        traverse (length vi) (begin_ (the_pool c) h) (end_of (the_pool c) h)
        = Some (Returns vi).
Proof.
  eexists. split; [vm_compute; reflexivity|]. split; [reflexivity|].
  apply (run_refines_lists 2
           [NewStack; Push 0 1; Push 0 2; NewStack; Push 1 3; Pop 0; Push 1 4;
            Push 0 5; FreeStack 1 3; Push 1 6]);
    [vm_compute; reflexivity | reflexivity].
Defined.
End StackPool.
